(** * The multi-channel alert delivery engine of [scripts/alert_manager.py]

    A shallow embedding of [AlertManager] and of the data it works on, and
    the properties of its dispatch, retry, expiry and creation operations.

    Conventions of the embedding.
    - A Python [str] is a [string]; a [Dict[str, V]] that is only read and
      written by key is a [gmap string V]; a value that may be [None] is an
      [option].  A subscript [d[k]] on a missing key raises [KeyError]; the
      lookup [d !! k] returning [None] stands for that exception.
    - [self.alerts] is a Python dict, iterated in insertion order; it is an
      association list with one entry per key.
    - A [datetime] is an integer number of seconds, counted from
      [datetime.min]; [datetime.now()] is an argument of the operation
      that reads it.
    - A [float] is a binary64 number, Rocq's primitive [float], whose
      operations are the IEEE 754 ones Python uses.
    - The transports (SMTP, Twilio, Telegram, Slack, FCM, the live sockets)
      are the outside world: an arbitrary state [World] and arbitrary
      functions on it that say whether one call completed.  Every sender of
      the source wraps its transport call in [try/except Exception] and
      turns an exception into [False], so a transport "fails" when it
      raises or answers negatively.
    - The alert files under [data/alerts] are a map from alert id to the
      saved document, which holds every field of the alert; writing a file
      is assumed to succeed. *)

From Stdlib Require Import ZArith List Bool String Floats.
From Stdlib Require Uint63.
From stdpp Require Import gmap strings list fin_maps.

#[local] Set Warnings "-inexact-float".

Local Open Scope string_scope.
Local Open Scope Z_scope.

(** ** Data model *)

Inductive AlertChannel : Type :=
  | EMAIL | SMS | TELEGRAM | SLACK | WEBSOCKET | PUSH.

(** [AlertChannel.<member>.value] *)
Definition value (c : AlertChannel) : string :=
  match c with
  | EMAIL => "email"
  | SMS => "sms"
  | TELEGRAM => "telegram"
  | SLACK => "slack"
  | WEBSOCKET => "websocket"
  | PUSH => "push"
  end.

Record AlertChannelConfig : Type := mkChannelConfig {
  channel : AlertChannel;
  enabled : bool;
  config : gmap string (option string)
}.

Record Alert : Type := mkAlert {
  id : string;
  investor_id : string;
  opportunity_id : string;
  title : string;
  description : string;
  match_score : float;
  timestamp : Z;
  expires_at : Z;
  priority : string;
  status : string;
  notification_attempts : Z;
  channels : list AlertChannelConfig;
  delivery_status : gmap string string;
  retry_count : gmap string Z
}.

(** Attribute assignments [alert.f = v]. *)
Definition set_status (v : string) (a : Alert) : Alert :=
  mkAlert (id a) (investor_id a) (opportunity_id a) (title a) (description a)
    (match_score a) (timestamp a) (expires_at a) (priority a) v
    (notification_attempts a) (channels a) (delivery_status a) (retry_count a).

Definition set_notification_attempts (v : Z) (a : Alert) : Alert :=
  mkAlert (id a) (investor_id a) (opportunity_id a) (title a) (description a)
    (match_score a) (timestamp a) (expires_at a) (priority a) (status a)
    v (channels a) (delivery_status a) (retry_count a).

Definition set_delivery_status (v : gmap string string) (a : Alert) : Alert :=
  mkAlert (id a) (investor_id a) (opportunity_id a) (title a) (description a)
    (match_score a) (timestamp a) (expires_at a) (priority a) (status a)
    (notification_attempts a) (channels a) v (retry_count a).

Definition set_retry_count (v : gmap string Z) (a : Alert) : Alert :=
  mkAlert (id a) (investor_id a) (opportunity_id a) (title a) (description a)
    (match_score a) (timestamp a) (expires_at a) (priority a) (status a)
    (notification_attempts a) (channels a) (delivery_status a) v.

(** [alert.retry_count.get(name, 0)] *)
Definition retry_count_get (a : Alert) (name : string) : Z :=
  default 0 (retry_count a !! name).

(** The investor's stored preference document.  Each field is a key of the
    JSON object; [None] is an absent key (or a null value). *)
Record Preferences : Type := mkPreferences {
  pref_channels : option (list string);
  pref_email : option string;
  pref_phone : option string;
  pref_telegram_chat_id : option string;
  pref_slack_channel : option string;
  pref_device_token : option string
}.

(** [{}], what [self.alert_preferences.get(investor.id, {})] falls back to. *)
Definition no_preferences : Preferences :=
  mkPreferences None None None None None None.

(** The opportunity dict: the subscripted keys are fields, the keys read
    with [.get(k, False)] are optional. *)
Record Opportunity : Type := mkOpportunity {
  opp_id : string;
  opp_name : string;
  sector : string;
  investment_amount : float;
  location : string;
  deal_type : string;
  urgent : option bool;
  competitive_situation : option bool
}.

(** The manager's in-memory state. *)
Record AlertManager : Type := mkManager {
  alerts : list (string * Alert);
  alert_preferences : gmap string Preferences;
  websocket_connections : gmap string (list nat)
}.

(** [self.alerts[key] = a] on an insertion-ordered dict. *)
Fixpoint dict_set (key : string) (a : Alert) (d : list (string * Alert))
  : list (string * Alert) :=
  match d with
  | [] => [(key, a)]
  | (k, v) :: d' =>
      if String.eqb k key then (k, a) :: d' else (k, v) :: dict_set key a d'
  end.

Fixpoint dict_get (key : string) (d : list (string * Alert)) : option Alert :=
  match d with
  | [] => None
  | (k, v) :: d' => if String.eqb k key then Some v else dict_get key d'
  end.

(** What a call in a [try] block of the dispatcher does: it returns, or an
    exception reaches the enclosing handler. *)
Inductive Outcome : Type :=
  | Returned (success : bool)
  | Raised.

(** ** The senders and the dispatcher *)

Section Engine.

(** The outside world. *)
Context {World : Type}.

(** One call of a channel's transport for an alert and a target address:
    [true] when it completed and answered positively. *)
Variable transport :
  AlertChannel -> Alert -> option string -> World -> bool * World.

(** [connection.send(...)] on one registered live socket: [false] when
    it raises. *)
Variable socket_send : nat -> Alert -> World -> bool * World.

(** The world together with the alert files. *)
Record Env : Type := mkEnv {
  net : World;
  files : gmap string Alert
}.

(** [_save_alert]: writes [data/alerts/<id>.json]. *)
Definition _save_alert (a : Alert) (env : Env) : Env :=
  mkEnv (net env) (<[id a := a]> (files env)).

Definition call_transport (c : AlertChannel) (a : Alert)
    (addr : option string) (env : Env) : bool * Env :=
  let '(ok, w) := transport c a addr (net env) in
  (ok, mkEnv w (files env)).

(** [send_alert_email]: on a completed SMTP send the alert becomes
    [sent], its attempt counter grows and it is saved. *)
Definition send_alert_email (a : Alert) (investor_email : option string)
    (view_url : string) (env : Env) : bool * Alert * Env :=
  let '(ok, env1) := call_transport EMAIL a investor_email env in
  if ok then
    let a1 := set_status "sent" a in
    let a2 := set_notification_attempts (notification_attempts a1 + 1) a1 in
    (true, a2, _save_alert a2 env1)
  else (false, a, env1).

Definition send_alert_sms (a : Alert) (phone_number : option string)
    (env : Env) : bool * Env :=
  call_transport SMS a phone_number env.

Definition send_alert_telegram (a : Alert) (chat_id : option string)
    (env : Env) : bool * Env :=
  call_transport TELEGRAM a chat_id env.

Definition send_alert_slack (a : Alert) (chan : option string)
    (env : Env) : bool * Env :=
  call_transport SLACK a chan env.

Definition send_push_notification (a : Alert) (device_token : option string)
    (env : Env) : bool * Env :=
  call_transport PUSH a device_token env.

(** The loop over the registered sockets of one connection id: the first
    send that raises ends it with [False]. *)
Fixpoint send_to_sockets (conns : list nat) (a : Alert) (w : World)
  : bool * World :=
  match conns with
  | [] => (true, w)
  | c :: rest =>
      let '(ok, w1) := socket_send c a w in
      if ok then send_to_sockets rest a w1 else (false, w1)
  end.

Definition send_alert_websocket (mgr : AlertManager) (a : Alert)
    (connection_id : option string) (env : Env) : bool * Env :=
  match connection_id with
  | None => (false, env)
  | Some cid =>
      match websocket_connections mgr !! cid with
      | None => (false, env)
      | Some conns =>
          let '(ok, w) := send_to_sockets conns a (net env) in
          (ok, mkEnv w (files env))
      end
  end.

(** The [if/elif] ladder in the [try] block of [send_alert].  A missing
    key of [channel_config.config] raises [KeyError] before the sender is
    called. *)
Definition send_via (mgr : AlertManager) (cc : AlertChannelConfig)
    (a : Alert) (investor_email : option string) (view_url : string)
    (env : Env) : Outcome * Alert * Env :=
  match channel cc with
  | EMAIL =>
      let '(ok, a1, env1) := send_alert_email a investor_email view_url env in
      (Returned ok, a1, env1)
  | SMS =>
      match config cc !! "phone" with
      | None => (Raised, a, env)
      | Some phone =>
          let '(ok, env1) := send_alert_sms a phone env in
          (Returned ok, a, env1)
      end
  | TELEGRAM =>
      match config cc !! "chat_id" with
      | None => (Raised, a, env)
      | Some chat =>
          let '(ok, env1) := send_alert_telegram a chat env in
          (Returned ok, a, env1)
      end
  | SLACK =>
      match config cc !! "channel" with
      | None => (Raised, a, env)
      | Some chan =>
          let '(ok, env1) := send_alert_slack a chan env in
          (Returned ok, a, env1)
      end
  | WEBSOCKET =>
      match config cc !! "connection_id" with
      | None => (Raised, a, env)
      | Some cid =>
          let '(ok, env1) := send_alert_websocket mgr a cid env in
          (Returned ok, a, env1)
      end
  | PUSH =>
      match config cc !! "device_token" with
      | None => (Raised, a, env)
      | Some tok =>
          let '(ok, env1) := send_push_notification a tok env in
          (Returned ok, a, env1)
      end
  end.

(** One iteration of the loop of [send_alert] on an enabled channel. *)
Definition send_alert_step (mgr : AlertManager) (cc : AlertChannelConfig)
    (investor_email : option string) (view_url : string)
    (st : gmap string bool * Alert * Env) : gmap string bool * Alert * Env :=
  let '(results, a, env) := st in
  let name := value (channel cc) in
  match send_via mgr cc a investor_email view_url env with
  | (Returned success, a1, env1) =>
      let results1 := <[name := success]> results in
      let a2 :=
        set_delivery_status
          (<[name := if success then "delivered" else "failed"]>
             (delivery_status a1)) a1 in
      let a3 :=
        if success then a2
        else set_retry_count
               (<[name := retry_count_get a2 name + 1]> (retry_count a2)) a2 in
      (results1, a3, env1)
  | (Raised, a1, env1) =>
      let results1 := <[name := false]> results in
      let a2 := set_delivery_status (<[name := "error"]> (delivery_status a1)) a1 in
      (results1, a2, env1)
  end.

Fixpoint send_alert_loop (mgr : AlertManager) (ccs : list AlertChannelConfig)
    (investor_email : option string) (view_url : string)
    (st : gmap string bool * Alert * Env) : gmap string bool * Alert * Env :=
  match ccs with
  | [] => st
  | cc :: rest =>
      if enabled cc
      then send_alert_loop mgr rest investor_email view_url
             (send_alert_step mgr cc investor_email view_url st)
      else send_alert_loop mgr rest investor_email view_url st
  end.

(** [send_alert]: the result map, the alert as mutated, the new
    environment. *)
Definition send_alert (mgr : AlertManager) (a : Alert)
    (investor_email : option string) (view_url : string) (env : Env)
  : gmap string bool * Alert * Env :=
  let '(results, a1, env1) :=
    send_alert_loop mgr (channels a) investor_email view_url (∅, a, env) in
  (results, a1, _save_alert a1 env1).

(** ** The retry sweep *)

(** The guard of [retry_failed_alerts]:
    [delivery_status.get(name) in ["failed", "error"]
     and retry_count.get(name, 0) < 3]. *)
Definition needs_retry (a : Alert) (name : string) : bool :=
  match delivery_status a !! name with
  | Some s => (String.eqb s "failed" || String.eqb s "error")
              && (retry_count_get a name <? 3)
  | None => false
  end.

(** The ladder of [retry_failed_alerts].  It stands outside any [try]:
    a missing configuration key raises [KeyError] out of the sweep. *)
Definition retry_via (mgr : AlertManager) (cc : AlertChannelConfig)
    (a : Alert) (env : Env) : Outcome * Alert * Env :=
  match channel cc with
  | EMAIL =>
      match config cc !! "email" with
      | None => (Raised, a, env)
      | Some addr =>
          let '(ok, a1, env1) :=
            send_alert_email a addr
              ("https://yourplatform.com/opportunities/" ++ opportunity_id a)
              env in
          (Returned ok, a1, env1)
      end
  | SMS =>
      match config cc !! "phone" with
      | None => (Raised, a, env)
      | Some phone =>
          let '(ok, env1) := send_alert_sms a phone env in
          (Returned ok, a, env1)
      end
  | TELEGRAM =>
      match config cc !! "chat_id" with
      | None => (Raised, a, env)
      | Some chat =>
          let '(ok, env1) := send_alert_telegram a chat env in
          (Returned ok, a, env1)
      end
  | SLACK =>
      match config cc !! "channel" with
      | None => (Raised, a, env)
      | Some chan =>
          let '(ok, env1) := send_alert_slack a chan env in
          (Returned ok, a, env1)
      end
  | WEBSOCKET =>
      match config cc !! "connection_id" with
      | None => (Raised, a, env)
      | Some cid =>
          let '(ok, env1) := send_alert_websocket mgr a cid env in
          (Returned ok, a, env1)
      end
  | PUSH =>
      match config cc !! "device_token" with
      | None => (Raised, a, env)
      | Some tok =>
          let '(ok, env1) := send_push_notification a tok env in
          (Returned ok, a, env1)
      end
  end.

(** How a loop that may be left by an exception ends. *)
Inductive Completion : Type :=
  | Completed
  | KeyErrorRaised.

(** The inner loop of [retry_failed_alerts] over [alert.channels]. *)
Fixpoint retry_channels (mgr : AlertManager) (ccs : list AlertChannelConfig)
    (a : Alert) (env : Env) : Completion * Alert * Env :=
  match ccs with
  | [] => (Completed, a, env)
  | cc :: rest =>
      let name := value (channel cc) in
      if needs_retry a name then
        match retry_via mgr cc a env with
        | (Raised, a1, env1) => (KeyErrorRaised, a1, env1)
        | (Returned success, a1, env1) =>
            let a2 :=
              if success
              then set_delivery_status
                     (<[name := "delivered"]> (delivery_status a1)) a1
              else set_retry_count
                     (<[name := retry_count_get a1 name + 1]> (retry_count a1)) a1 in
            retry_channels mgr rest a2 (_save_alert a2 env1)
        end
      else retry_channels mgr rest a env
  end.

(** The outer loop over [self.alerts.values()]; the alerts are mutated
    in place, so every entry keeps its key and position. *)
Fixpoint retry_alerts (mgr : AlertManager) (d : list (string * Alert))
    (env : Env) : Completion * list (string * Alert) * Env :=
  match d with
  | [] => (Completed, [], env)
  | (k, a) :: rest =>
      match retry_channels mgr (channels a) a env with
      | (KeyErrorRaised, a1, env1) => (KeyErrorRaised, (k, a1) :: rest, env1)
      | (Completed, a1, env1) =>
          let '(c, rest1, env2) := retry_alerts mgr rest env1 in
          (c, (k, a1) :: rest1, env2)
      end
  end.

Definition with_alerts (mgr : AlertManager) (d : list (string * Alert))
  : AlertManager :=
  mkManager d (alert_preferences mgr) (websocket_connections mgr).

Definition retry_failed_alerts (mgr : AlertManager) (env : Env)
  : Completion * AlertManager * Env :=
  let '(c, d, env1) := retry_alerts mgr (alerts mgr) env in
  (c, with_alerts mgr d, env1).

(** ** Processing the pending alerts *)

Record ProcessResult : Type := mkProcessResult {
  res_alert_id : string;
  res_investor_id : string;
  res_success : gmap string bool
}.

(** The loop of [process_pending_alerts]; [get_investor_email_func] is
    the caller's lookup of an investor's address, taken as a function. *)
Fixpoint process_pending (mgr : AlertManager)
    (get_investor_email_func : string -> option string) (current_time : Z)
    (d : list (string * Alert)) (env : Env)
  : list ProcessResult * list (string * Alert) * Env :=
  match d with
  | [] => ([], [], env)
  | (k, a) :: rest =>
      if String.eqb (status a) "pending" && (current_time <? expires_at a) then
        let investor_email := get_investor_email_func (investor_id a) in
        let view_url :=
          "https://yourplatform.com/opportunities/" ++ opportunity_id a in
        let '(success, a1, env1) := send_alert mgr a investor_email view_url env in
        let '(results, rest1, env2) :=
          process_pending mgr get_investor_email_func current_time rest env1 in
        (mkProcessResult (id a) (investor_id a) success :: results,
         (k, a1) :: rest1, env2)
      else
        let '(results, rest1, env1) :=
          process_pending mgr get_investor_email_func current_time rest env in
        (results, (k, a) :: rest1, env1)
  end.

Definition process_pending_alerts (mgr : AlertManager)
    (get_investor_email_func : string -> option string) (current_time : Z)
    (env : Env) : list ProcessResult * AlertManager * Env :=
  let '(results, d, env1) :=
    process_pending mgr get_investor_email_func current_time (alerts mgr) env in
  (results, with_alerts mgr d, env1).

(** ** Marking read and expiring *)

Definition mark_alert_read (mgr : AlertManager) (alert_id : string)
    (env : Env) : AlertManager * Env :=
  match dict_get alert_id (alerts mgr) with
  | Some a =>
      let a1 := set_status "read" a in
      (with_alerts mgr (dict_set alert_id a1 (alerts mgr)), _save_alert a1 env)
  | None => (mgr, env)
  end.

(** The list comprehension of [cleanup_expired_alerts]. *)
Definition expired_ids (current_time : Z) (d : list (string * Alert))
  : list string :=
  fst <$> filter (fun e => expires_at (snd e) < current_time) d.

(** The body of its loop: [alert = self.alerts[alert_id]], the status
    write on that object, the save.  The ids are keys of the dict, so
    the subscript does not raise. *)
Definition expire_one (st : list (string * Alert) * Env) (alert_id : string)
  : list (string * Alert) * Env :=
  match dict_get alert_id (fst st) with
  | Some a =>
      let a1 := set_status "expired" a in
      (dict_set alert_id a1 (fst st), _save_alert a1 (snd st))
  | None => st
  end.

Definition cleanup_expired_alerts (mgr : AlertManager) (current_time : Z)
    (env : Env) : AlertManager * Env :=
  let '(d, env1) :=
    fold_left expire_one (expired_ids current_time (alerts mgr))
      (alerts mgr, env) in
  (with_alerts mgr d, env1).

(** ** Creating an alert *)

(** The text rendering of [create_alert]; no property below depends on
    the rendered text. *)
Context {AdditionalData : Type}.
Variable _generate_enhanced_description :
  Opportunity -> float -> option AdditionalData -> string.
Variable _generate_alert_title : Opportunity -> string.
(** [f"alert_{len(self.alerts) + 1}_{now.strftime('%Y%m%d%H%M%S')}"] *)
Variable format_alert_id : nat -> Z -> string.

(** [_calculate_priority] *)
Definition _calculate_priority (match_score : float) (opportunity : Opportunity)
  : string :=
  let priority_score := match_score in
  let priority_score :=
    if default false (urgent opportunity)
    then (priority_score + 0.2)%float else priority_score in
  let priority_score :=
    if (10000000 <=? investment_amount opportunity)%float
    then (priority_score + 0.1)%float else priority_score in
  let priority_score :=
    if default false (competitive_situation opportunity)
    then (priority_score + 0.1)%float else priority_score in
  if (0.9 <=? priority_score)%float then "urgent"
  else if (0.7 <=? priority_score)%float then "high"
  else if (0.5 <=? priority_score)%float then "medium"
  else "low".

(** [x in preferences.get("channels", dflt)] *)
Definition selects (preferences : Preferences) (dflt : list string)
    (x : string) : bool :=
  bool_decide (x ∈ default dflt (pref_channels preferences)).

(** The channel list built by [create_alert]. *)
Definition build_channels (preferences : Preferences) (investor : string)
  : list AlertChannelConfig :=
  (if selects preferences ["email"] "email"
   then [mkChannelConfig EMAIL true {["email" := pref_email preferences]}]
   else [])
  ++ (if selects preferences [] "sms"
      then [mkChannelConfig SMS true {["phone" := pref_phone preferences]}]
      else [])
  ++ (if selects preferences [] "telegram"
      then [mkChannelConfig TELEGRAM true
              {["chat_id" := pref_telegram_chat_id preferences]}]
      else [])
  ++ (if selects preferences [] "slack"
      then [mkChannelConfig SLACK true
              {["channel" := pref_slack_channel preferences]}]
      else [])
  ++ (if selects preferences [] "websocket"
      then [mkChannelConfig WEBSOCKET true {["connection_id" := Some investor]}]
      else [])
  ++ (if selects preferences [] "push"
      then [mkChannelConfig PUSH true
              {["device_token" := pref_device_token preferences]}]
      else []).

(** [create_alert] on the path where line 399 builds the expiry time;
    [investor] is [investor.id], the three times are the three readings
    of [datetime.now()].  The call with the [OverflowError] of that line
    is [create_alert_outcome] below. *)
Definition create_alert (mgr : AlertManager) (investor : string)
    (opportunity : Opportunity) (score : float) (expiration_hours : Z)
    (additional_data : option AdditionalData)
    (now_id now_timestamp now_expiry : Z) (env : Env)
  : Alert * AlertManager * Env :=
  let preferences :=
    default no_preferences (alert_preferences mgr !! investor) in
  let chans := build_channels preferences investor in
  let descr := _generate_enhanced_description opportunity score additional_data in
  let alert :=
    mkAlert
      (format_alert_id (length (alerts mgr) + 1) now_id)
      investor
      (opp_id opportunity)
      (_generate_alert_title opportunity)
      descr
      score
      now_timestamp
      (now_expiry + expiration_hours * 3600)
      (_calculate_priority score opportunity)
      "pending"
      0
      chans
      ∅
      ∅ in
  (alert, with_alerts mgr (dict_set (id alert) alert (alerts mgr)),
   _save_alert alert env).




End Engine.

(** ** The priority score in the words of the specification

    Start from [match_score]; add 0.2 when the opportunity is flagged
    urgent, 0.1 when its size is at least the large-deal threshold of
    10,000,000, and 0.1 when it is competitively contested; then map the
    sum to a bucket by its inclusive lower bound. *)

Definition priority_score (score : float) (opportunity : Opportunity) : float :=
  let s := score in
  let s := if default false (urgent opportunity) then (s + 0.2)%float else s in
  let s :=
    if (10000000 <=? investment_amount opportunity)%float
    then (s + 0.1)%float else s in
  if default false (competitive_situation opportunity) then (s + 0.1)%float else s.

Definition priority_bucket (s : float) : string :=
  if (0.9 <=? s)%float then "urgent"
  else if (0.7 <=? s)%float then "high"
  else if (0.5 <=? s)%float then "medium"
  else "low".

(** The order of the priorities: low, medium, high, urgent. *)
Definition priority_rank (p : string) : nat :=
  if String.eqb p "urgent" then 3
  else if String.eqb p "high" then 2
  else if String.eqb p "medium" then 1
  else 0.

(** ** Vocabulary of the properties *)

(** *** Effects on an alert *)

(** What a sender may change on the alert it is given: only the e-mail
    sender writes, and only the status and the attempt counter. *)
Definition sender_effect (a a1 : Alert) : Prop :=
  id a1 = id a ∧ expires_at a1 = expires_at a ∧ channels a1 = channels a ∧
  delivery_status a1 = delivery_status a ∧ retry_count a1 = retry_count a ∧
  (status a1 = status a ∨ status a1 = "sent").

(** What the sweep may do to one alert: the status moves to [sent] or
    not at all; a counter that is at most 3 stays at most 3; a channel
    whose counter has reached 3 keeps its delivery status and counter. *)
Definition retry_effect (a a1 : Alert) : Prop :=
  id a1 = id a ∧ expires_at a1 = expires_at a ∧ channels a1 = channels a ∧
  (status a1 = status a ∨ status a1 = "sent") ∧
  ∀ name : string,
    (retry_count_get a name ≤ 3 → retry_count_get a1 name ≤ 3) ∧
    (3 ≤ retry_count_get a name →
     delivery_status a1 !! name = delivery_status a !! name ∧
     retry_count a1 !! name = retry_count a !! name).

(** *** The alert dict and the alert files *)

(** [f] applied to the value stored under [key], when there is one. *)
Fixpoint dict_alter (f : Alert -> Alert) (key : string) (d : list (string * Alert))
  : list (string * Alert) :=
  match d with
  | [] => []
  | (k, v) :: d' =>
      if String.eqb k key then (k, f v) :: d' else (k, v) :: dict_alter f key d'
  end.

(** The last alert of a list of saved alerts that has the id [j]. *)
Fixpoint latest_saved (j : string) (saved : list Alert) : option Alert :=
  match saved with
  | [] => None
  | v :: rest =>
      match latest_saved j rest with
      | Some w => Some w
      | None => if decide (id v = j) then Some v else None
      end
  end.

(** The alerts saved by a run of the loop of [cleanup_expired_alerts] over
    [ids], and the dict it leaves. *)
Definition expiry_saves (ids : list string) (d : list (string * Alert)) : list Alert :=
  omap (fun k => set_status "expired" <$> dict_get k d) ids.

Definition expiry_dict (ids : list string) (d : list (string * Alert))
  : list (string * Alert) :=
  fold_left (fun d k => dict_alter (set_status "expired") k d) ids d.

Definition save_all {World : Type} (saved : list Alert) (env : @Env World)
  : Env :=
  fold_left (fun e v => _save_alert v e) saved env.

(** The default list of [preferences.get("channels", ...)] for a channel:
    [["email"]] in the e-mail test, [[]] in the others. *)
Definition default_selection (c : AlertChannel) : list string :=
  match c with EMAIL => ["email"] | _ => [] end.

(** *** Binary64 numbers as integers *)

(** The integer nearest to [n / 2^k], ties to even, for [0 ≤ n], [0 ≤ k]. *)
Definition rne (n k : Z) : Z :=
  let q := n / 2 ^ k in
  match 2 * (n mod 2 ^ k) ?= 2 ^ k with
  | Lt => q
  | Gt => q + 1
  | Eq => if Z.even q then q else q + 1
  end.

(** A binary64 number is a multiple of [2^-1074]; [scaled f] is [f] in
    that unit, with the infinities at [± 2^2098], the first power of two
    past the largest finite number. *)
Definition scaled_inf : Z := 2 ^ 2098.

Definition scaled (f : spec_float) : Z :=
  match f with
  | S754_zero _ => 0
  | S754_nan => 0
  | S754_infinity s => cond_Zopp s scaled_inf
  | S754_finite s m e => cond_Zopp s (Zpos m * 2 ^ (e + 1074))
  end.

(** Rounding of a positive multiple [n] of [2^-1074] to binary64. *)
Definition round_scaled_pos (n : Z) : Z :=
  let k := Z.max (Zdigits2 n - 53) 0 in
  Z.min (rne n k * 2 ^ k) scaled_inf.

Definition round_scaled (n : Z) : Z :=
  match n with
  | Z0 => 0
  | Zpos _ => round_scaled_pos n
  | Zneg p => - round_scaled_pos (Zpos p)
  end.

(** The record after [n] steps of [shr_1] from the exact [m]. *)
Definition shifted (m n : Z) (mrs : shr_record) : Prop :=
  shr_m mrs = m / 2 ^ n ∧
  (n = 0 → shr_r mrs = false ∧ shr_s mrs = false) ∧
  (0 < n →
   shr_r mrs = Z.odd (m / 2 ^ (n - 1)) ∧
   shr_s mrs = negb (m mod 2 ^ (n - 1) =? 0)).

(** A number that is neither an infinity nor a NaN. *)
Definition finite_or_zero (f : spec_float) : Prop :=
  match f with
  | S754_zero _ | S754_finite _ _ _ => True
  | _ => False
  end.

(** A primitive float is a NaN; its value as an integer. *)
Definition fnan (x : float) : Prop := Prim2SF x = S754_nan.

Definition fval (x : float) : Z := scaled (Prim2SF x).

(** ** Further operations of [AlertManager] and their callers *)

(** [get_investor_alerts] *)
Definition get_investor_alerts (mgr : AlertManager) (investor : string)
    (include_expired : bool) (current_time : Z) : list Alert :=
  filter
    (fun a => investor_id a = investor ∧
              (include_expired = true ∨ current_time < expires_at a))
    (snd <$> alerts mgr).

(** The dict returned by [get_alert_statistics]; the four counts of
    [by_priority] are fields of their own.  The average of no alert is the
    integer [0] in the source and the float [0] here. *)
Record AlertStatistics : Type := mkStatistics {
  total_alerts : nat;
  read_alerts : nat;
  expired_alerts : nat;
  average_match_score : float;
  urgent_alerts : nat;
  high_alerts : nat;
  medium_alerts : nat;
  low_alerts : nat
}.

(** [sum(1 for a in l if a.<field> == v)] *)
Definition count_where (field : Alert -> string) (v : string) (l : list Alert) : nat :=
  length (filter (fun a => field a = v) l).

(** [sum(a.match_score for a in l) / len(l)]: the sum runs from the left,
    starting at 0, and the length is converted to a float. *)
Definition mean_match_score (l : list Alert) : float :=
  (fold_left (fun acc a => acc + match_score a) l 0
   / of_uint63 (Uint63.of_Z (Z.of_nat (length l))))%float.

Definition get_alert_statistics (mgr : AlertManager) (investor : string)
  : AlertStatistics :=
  let investor_alerts :=
    filter (fun a => investor_id a = investor) (snd <$> alerts mgr) in
  mkStatistics
    (length investor_alerts)
    (count_where status "read" investor_alerts)
    (count_where status "expired" investor_alerts)
    (match investor_alerts with
     | [] => 0%float
     | _ => mean_match_score investor_alerts
     end)
    (count_where priority "urgent" investor_alerts)
    (count_where priority "high" investor_alerts)
    (count_where priority "medium" investor_alerts)
    (count_where priority "low" investor_alerts).

Definition with_connections (mgr : AlertManager) (c : gmap string (list nat))
  : AlertManager :=
  mkManager (alerts mgr) (alert_preferences mgr) c.

(** [register_websocket]; a connection is named by a number. *)
Definition register_websocket (mgr : AlertManager) (investor : string)
    (connection : nat) : AlertManager :=
  with_connections mgr
    (<[investor :=
         (default [] (websocket_connections mgr !! investor) ++ [connection])%list]>
       (websocket_connections mgr)).

(** [list.remove(x)]: the first occurrence goes; [None] is the
    [ValueError] of a list without [x]. *)
Fixpoint list_remove (x : nat) (l : list nat) : option (list nat) :=
  match l with
  | [] => None
  | y :: rest => if Nat.eqb y x then Some rest else cons y <$> list_remove x rest
  end.

(** [unregister_websocket]; [None] is the [ValueError] that leaves it. *)
Definition unregister_websocket (mgr : AlertManager) (investor : string)
    (connection : nat) : option AlertManager :=
  match websocket_connections mgr !! investor with
  | None => Some mgr
  | Some conns =>
      match list_remove connection conns with
      | None => None
      | Some rest =>
          Some (with_connections mgr (<[investor := rest]> (websocket_connections mgr)))
      end
  end.

(** The alert built by [_load_existing_alerts] from one saved document:
    the channels, the delivery status and the retry counts are not read
    back. *)
Definition loaded_alert (data : Alert) : Alert :=
  mkAlert (id data) (investor_id data) (opportunity_id data) (title data)
    (description data) (match_score data) (timestamp data) (expires_at data)
    (priority data) (status data) (notification_attempts data) [] ∅ ∅.

(** [_load_existing_alerts] over the documents of [data/alerts], in the
    order the directory yields them (none when it does not exist). *)
Definition _load_existing_alerts (documents : list Alert) (mgr : AlertManager)
  : AlertManager :=
  with_alerts mgr
    (fold_left (fun d data => dict_set (id data) (loaded_alert data) d)
       documents (alerts mgr)).

(** A value of a JSON document of preferences. *)
Inductive JValue : Type :=
  | JNull
  | JBool (b : bool)
  | JNumber (x : float)
  | JString (s : string)
  | JStrings (l : list string).

Definition string_at (doc : gmap string JValue) (key : string) : option string :=
  match doc !! key with
  | Some (JString s) => Some s
  | _ => None
  end.

(** The keys of a preference document that [create_alert] reads, as the
    record it works on, for a document whose [channels] is absent or a
    list of strings and whose addresses are absent, null or strings.
    Other documents are outside the typed record: on null or a number
    under [channels] the membership tests of [create_alert] raise
    [TypeError], and on a string they are substring tests.  The
    properties below that go through this function are about documents
    of the first kind, or hold whatever the record is. *)
Definition preferences_of (doc : gmap string JValue) : Preferences :=
  mkPreferences
    (match doc !! "channels" with
     | Some (JStrings l) => Some l
     | _ => None
     end)
    (string_at doc "email")
    (string_at doc "phone")
    (string_at doc "telegram_chat_id")
    (string_at doc "slack_channel")
    (string_at doc "device_token").

(** [save_alert_preferences]: the document is written to
    [<investor_id>_preferences.json] as it is, and kept in memory. *)
Definition save_alert_preferences (mgr : AlertManager) (investor : string)
    (preferences : gmap string JValue)
    (preference_files : gmap string (gmap string JValue))
  : AlertManager * gmap string (gmap string JValue) :=
  (mkManager (alerts mgr)
     (<[investor := preferences_of preferences]> (alert_preferences mgr))
     (websocket_connections mgr),
   <[investor ++ "_preferences" := preferences]> preference_files).

(** How [_load_alert_preferences] ends. *)
Inductive LoadResult : Type :=
  | Loaded (preferences : gmap string Preferences)
  | LoadKeyError
  | LoadTypeError.

(** [_load_alert_preferences] over the documents of
    [data/alert_preferences]: each is stored under its own
    [data["investor_id"]].  A document without that key raises
    [KeyError], and a list as the id raises the [TypeError] of an
    unhashable key.  Null, a boolean or a number is a key as good as a
    string: the document is stored and the load goes on; no investor id,
    which is a string, equals such a key, so the entries under the string
    keys, which are the map here, are as before. *)
Fixpoint _load_alert_preferences (documents : list (gmap string JValue))
    (preferences : gmap string Preferences) : LoadResult :=
  match documents with
  | [] => Loaded preferences
  | data :: rest =>
      match data !! "investor_id" with
      | None => LoadKeyError
      | Some (JString investor) =>
          _load_alert_preferences rest
            (<[investor := preferences_of data]> preferences)
      | Some (JStrings _) => LoadTypeError
      | Some _ => _load_alert_preferences rest preferences
      end
  end.

(** The callers in [scripts/api.py]. *)
Module Api.

(** The request model [AlertPreferences] and its [.dict()]. *)
Record AlertPreferences : Type := mkAlertPreferences {
  min_match_score : float;
  enable_followup : bool;
  notification_channels : list string;
  alert_frequency : string
}.

Definition dict (p : AlertPreferences) : gmap string JValue :=
  <["min_match_score" := JNumber (min_match_score p)]>
    (<["enable_followup" := JBool (enable_followup p)]>
       (<["notification_channels" := JStrings (notification_channels p)]>
          (<["alert_frequency" := JString (alert_frequency p)]> ∅))).

(** [PUT /investors/alert-preferences] *)
Definition update_alert_preferences (mgr : AlertManager)
    (current_investor : string) (p : AlertPreferences)
    (preference_files : gmap string (gmap string JValue))
  : AlertManager * gmap string (gmap string JValue) :=
  save_alert_preferences mgr current_investor (dict p) preference_files.

(** What a route answers: its success body, or an [HTTPException]. *)
Inductive Response : Type :=
  | Success
  | HTTPException (status_code : nat).

(** [PUT /alerts/{alert_id}/read] *)
Definition mark_alert_read {World : Type} (mgr : AlertManager)
    (alert_id current_investor : string) (env : @Env World)
  : Response * AlertManager * Env :=
  match dict_get alert_id (alerts mgr) with
  | None => (HTTPException 404, mgr, env)
  | Some alert =>
      if String.eqb (investor_id alert) current_investor
      then let '(mgr1, env1) := mark_alert_read mgr alert_id env in
           (Success, mgr1, env1)
      else (HTTPException 403, mgr, env)
  end.

(** [GET /alerts] *)
Definition get_investor_alerts (mgr : AlertManager) (include_expired : bool)
    (current_investor : string) (current_time : Z) : list Alert :=
  get_investor_alerts mgr current_investor include_expired current_time.

End Api.

(** ** Vocabulary of the further properties *)

#[global] Instance AlertChannel_eq_dec : EqDecision AlertChannel.
Proof. solve_decision. Defined.

(** A result of a channel attempt and the delivery status written with it. *)
Definition agrees (success : bool) (recorded : option string) : Prop :=
  if success then recorded = Some "delivered"
  else recorded = Some "failed" ∨ recorded = Some "error".

(** A channel of the list is enabled and has the name [name]. *)
Definition attempts (ccs : list AlertChannelConfig) (name : string) : Prop :=
  ∃ cc, cc ∈ ccs ∧ enabled cc = true ∧ value (channel cc) = name.

(** The key of [channel_config.config] that holds the address of a
    channel. *)
Definition address_key (c : AlertChannel) : string :=
  match c with
  | EMAIL => "email"
  | SMS => "phone"
  | TELEGRAM => "chat_id"
  | SLACK => "channel"
  | WEBSOCKET => "connection_id"
  | PUSH => "device_token"
  end.





(** A JSON value that can be the key of a dict. *)
Definition hashable (v : JValue) : Prop :=
  match v with JStrings _ => False | _ => True end.

(** The configuration of a channel has the key of its address. *)
Definition well_configured (cc : AlertChannelConfig) : Prop :=
  is_Some (config cc !! address_key (channel cc)).

(** A delivered channel stays delivered, with its retry count. *)
Definition keeps_delivered (a a1 : Alert) : Prop :=
  ∀ name,
    delivery_status a !! name = Some "delivered" →
    delivery_status a1 !! name = Some "delivered" ∧
    retry_count a1 !! name = retry_count a !! name.

(** The guard of [process_pending_alerts]. *)
Definition dispatchable (current_time : Z) (a : Alert) : Prop :=
  status a = "pending" ∧ current_time < expires_at a.

(** ** Sample inputs

    A world without state, transports that always or never deliver, and a
    few alerts; the evaluations below run the code on them. *)

Definition delivering : AlertChannel -> Alert -> option string -> unit -> bool * unit :=
  fun _ _ _ w => (true, w).

Definition failing : AlertChannel -> Alert -> option string -> unit -> bool * unit :=
  fun _ _ _ w => (false, w).

Definition socket_ok : nat -> Alert -> unit -> bool * unit :=
  fun _ _ w => (true, w).

Definition blank_env : @Env unit := mkEnv tt ∅.

Definition no_alerts : AlertManager := mkManager [] ∅ ∅.

Definition sms_channel : AlertChannelConfig :=
  mkChannelConfig SMS true {["phone" := Some "+351900000000"]}.

Definition sms_channel_without_phone : AlertChannelConfig :=
  mkChannelConfig SMS true ∅.

Definition email_channel : AlertChannelConfig :=
  mkChannelConfig EMAIL true {["email" := Some "investor@example.com"]}.

(** An alert created at time 0 with the default 48 hours to live. *)
Definition sample_alert (st : string) (ccs : list AlertChannelConfig) : Alert :=
  mkAlert "alert_1_20240101000000" "inv_1" "opp_1" "title" "text"
    0.8%float 0 172800 "high" st 0 ccs ∅ ∅.

Definition investor_mail : option string := Some "investor@example.com".

Definition sample_url : string := "https://yourplatform.com/opportunities/opp_1".

(** [n] dispatches of the same alert, one after the other. *)
Fixpoint dispatch_times {World : Type}
    (transport : AlertChannel -> Alert -> option string -> World -> bool * World)
    (socket_send : nat -> Alert -> World -> bool * World)
    (mgr : AlertManager) (n : nat) (a : Alert) (env : Env) : Alert * Env :=
  match n with
  | O => (a, env)
  | S n' =>
      let '(_, a1, env1) :=
        send_alert transport socket_send mgr a investor_mail sample_url env in
      dispatch_times transport socket_send mgr n' a1 env1
  end.

(** A manager holding one alert that the investor has read, and one
    holding an alert whose text-message channel failed twice. *)
Definition read_store : AlertManager :=
  mkManager
    [("alert_1_20240101000000", sample_alert "read" [email_channel])] ∅ ∅.

Definition retried_alert : Alert :=
  mkAlert "alert_1_20240101000000" "inv_1" "opp_1" "title" "text"
    0.8%float 0 172800 "high" "pending" 0 [sms_channel]
    {["sms" := "failed"]} {["sms" := 2]}.

Definition retry_store : AlertManager :=
  mkManager [("alert_1_20240101000000", retried_alert)] ∅ ∅.


Definition email_address_only : Preferences :=
  mkPreferences None (Some "investor@example.com") None None None None.

Definition sample_opportunity : Opportunity :=
  mkOpportunity "opp_1" "Acme" "technology" 15000000%float "Lisbon" "equity"
    (Some true) None.

Definition plain_text : Opportunity -> float -> option unit -> string :=
  fun _ _ _ => "text".

Definition plain_title : Opportunity -> string := fun _ => "title".

Definition plain_id : nat -> Z -> string := fun _ _ => "alert_1_20240101000000".

Definition create_for (prefs : gmap string Preferences) : Alert * AlertManager * Env :=
  create_alert plain_text plain_title plain_id (mkManager [] prefs ∅)
    "inv_1" sample_opportunity 0.95%float 48 None 0 0 0 blank_env.

(** A manager holding the alert that failed twice, then an alert whose
    failed text-message channel has no phone number, then another alert
    that failed twice. *)
Definition unaddressed_alert : Alert :=
  mkAlert "alert_0_20240101000000" "inv_1" "opp_1" "title" "text"
    0.8%float 0 172800 "high" "pending" 0 [sms_channel_without_phone]
    {["sms" := "failed"]} ∅.

Definition unaddressed_store : AlertManager :=
  mkManager
    [("alert_1_20240101000000", retried_alert);
     ("alert_0_20240101000000", unaddressed_alert);
     ("alert_2_20240101000000",
      mkAlert "alert_2_20240101000000" "inv_1" "opp_1" "title" "text"
        0.8%float 0 172800 "high" "pending" 0 [sms_channel]
        {["sms" := "failed"]} {["sms" := 2]})] ∅ ∅.

(** A preference document that names its investor. *)
Definition named_preferences : gmap string JValue :=
  <["investor_id" := JString "inv_1"]> (<["channels" := JStrings ["sms"]]> ∅).

(** A store whose alert has an exhausted text-message channel and an
    e-mail channel that failed once, and transports that count their
    calls: one everywhere, one that answers otherwise where the counter
    has reached 3. *)
Definition exhausted_alert : Alert :=
  mkAlert "alert_1_20240101000000" "inv_1" "opp_1" "title" "text"
    0.8%float 0 172800 "high" "pending" 0 [sms_channel; email_channel]
    {["sms" := "failed"; "email" := "failed"]} {["sms" := 3; "email" := 1]}.

Definition exhausted_store : AlertManager :=
  mkManager [("alert_1_20240101000000", exhausted_alert)] ∅ ∅.

Definition counting : AlertChannel -> Alert -> option string -> nat -> bool * nat :=
  fun _ _ _ calls => (false, S calls).

Definition counting_below_bound
  : AlertChannel -> Alert -> option string -> nat -> bool * nat :=
  fun c a addr calls =>
    if retry_count_get a (value c) <? 3 then counting c a addr calls
    else (true, (calls + 100)%nat).

Definition socket_counting : nat -> Alert -> nat -> bool * nat :=
  fun _ _ calls => (true, S calls).

(** A manager holding a read alert, a sent alert, a pending alert past
    its expiry time and a pending alert within it. *)
Definition mixed_store : AlertManager :=
  mkManager
    [("alert_1_20240101000000", sample_alert "read" [email_channel]);
     ("alert_2_20240101000000",
      mkAlert "alert_2_20240101000000" "inv_1" "opp_2" "title" "text"
        0.8%float 0 172800 "high" "sent" 1 [email_channel] ∅ ∅);
     ("alert_3_20240101000000",
      mkAlert "alert_3_20240101000000" "inv_2" "opp_3" "title" "text"
        0.8%float 0 50 "high" "pending" 0 [sms_channel] ∅ ∅);
     ("alert_4_20240101000000",
      mkAlert "alert_4_20240101000000" "inv_2" "opp_4" "title" "text"
        0.8%float 0 400000 "high" "pending" 0 [sms_channel] ∅ ∅)] ∅ ∅.

(** A manager holding an alert past its expiry time at 200000 and one
    within it. *)
Definition overdue_store : AlertManager :=
  mkManager
    [("alert_1_20240101000000", sample_alert "sent" [email_channel]);
     ("alert_4_20240101000000",
      mkAlert "alert_4_20240101000000" "inv_1" "opp_4" "title" "text"
        0.8%float 0 400000 "high" "pending" 0 [sms_channel] ∅ ∅)] ∅ ∅.

(** ** Binary64 arithmetic

    The sum of two binary64 numbers is the exact sum rounded to nearest,
    ties to even, and rounding is monotone; so adding a constant is a
    monotone operation on floats.  The proof goes through the
    specification of the primitive floats ([SpecFloat]), with every
    number read as an integer multiple of [2^-1074]. *)

(** *** Rounding to nearest even *)

Lemma rne_bounds n k :
  0 ≤ n → 0 ≤ k → n / 2 ^ k ≤ rne n k ≤ n / 2 ^ k + 1.
Proof.
  intros Hn Hk. unfold rne.
  destruct (2 * (n mod 2 ^ k) ?= 2 ^ k); [destruct (Z.even _)|..]; lia.
Qed.

Lemma rne_exact m k : 0 ≤ k → rne (m * 2 ^ k) k = m.
Proof.
  intros Hk. unfold rne.
  assert (0 < 2 ^ k) by (apply Z.pow_pos_nonneg; lia).
  rewrite Z.mod_mul, Z.div_mul by lia.
  replace (2 * 0) with 0 by lia.
  destruct (Z.compare_spec 0 (2 ^ k)); lia.
Qed.

Lemma rne_le_multiple n k c : 0 ≤ k → n ≤ c * 2 ^ k → rne n k ≤ c.
Proof.
  intros Hk Hle. assert (Hp : 0 < 2 ^ k) by (apply Z.pow_pos_nonneg; lia).
  destruct (Z.eq_dec n (c * 2 ^ k)) as [->|Hne]; [by rewrite rne_exact|].
  assert (n / 2 ^ k < c) by (apply Z.div_lt_upper_bound; lia).
  unfold rne.
  destruct (2 * (n mod 2 ^ k) ?= 2 ^ k); [destruct (Z.even _)|..]; lia.
Qed.

Lemma rne_ge_multiple n k c : 0 ≤ k → c * 2 ^ k ≤ n → c ≤ rne n k.
Proof.
  intros Hk Hle. assert (Hp : 0 < 2 ^ k) by (apply Z.pow_pos_nonneg; lia).
  assert (c ≤ n / 2 ^ k) by (apply Z.div_le_lower_bound; lia).
  unfold rne.
  destruct (2 * (n mod 2 ^ k) ?= 2 ^ k); [destruct (Z.even _)|..]; lia.
Qed.

Lemma rne_mono n1 n2 k : 0 ≤ k → n1 ≤ n2 → rne n1 k ≤ rne n2 k.
Proof.
  intros Hk Hle. assert (Hp : 0 < 2 ^ k) by (apply Z.pow_pos_nonneg; lia).
  pose proof (Z.div_le_mono n1 n2 (2 ^ k) Hp Hle) as Hq.
  pose proof (Z.div_mod n1 (2 ^ k) ltac:(lia)) as E1.
  pose proof (Z.div_mod n2 (2 ^ k) ltac:(lia)) as E2.
  pose proof (Z.mod_pos_bound n1 (2 ^ k) Hp) as B1.
  pose proof (Z.mod_pos_bound n2 (2 ^ k) Hp) as B2.
  unfold rne.
  destruct (Z.eq_dec (n1 / 2 ^ k) (n2 / 2 ^ k)) as [Heq|Hne].
  - rewrite Heq in *.
    assert (n1 mod 2 ^ k ≤ n2 mod 2 ^ k) by lia.
    destruct (Z.compare_spec (2 * (n1 mod 2 ^ k)) (2 ^ k)),
             (Z.compare_spec (2 * (n2 mod 2 ^ k)) (2 ^ k));
      destruct (Z.even (n2 / 2 ^ k)); lia.
  - destruct (2 * (n1 mod 2 ^ k) ?= 2 ^ k), (2 * (n2 mod 2 ^ k) ?= 2 ^ k);
      repeat destruct (Z.even _); lia.
Qed.

Lemma rne_scale n k j : 0 ≤ k → 0 ≤ j → rne (n * 2 ^ j) (k + j) = rne n k.
Proof.
  intros Hk Hj. unfold rne.
  assert (Hp : 0 < 2 ^ k) by (apply Z.pow_pos_nonneg; lia).
  assert (Hq : 0 < 2 ^ j) by (apply Z.pow_pos_nonneg; lia).
  rewrite Z.pow_add_r by lia.
  rewrite Z.div_mul_cancel_r by lia.
  rewrite Z.mul_mod_distr_r by lia.
  replace (2 * (n mod 2 ^ k * 2 ^ j)) with (2 * (n mod 2 ^ k) * 2 ^ j) by lia.
  destruct (Z.compare_spec (2 * (n mod 2 ^ k)) (2 ^ k)),
           (Z.compare_spec (2 * (n mod 2 ^ k) * 2 ^ j) (2 ^ k * 2 ^ j));
    try reflexivity; nia.
Qed.

(** *** The number of binary digits *)

Lemma digits2_pos_bounds p :
  2 ^ (Zpos (digits2_pos p) - 1) ≤ Zpos p < 2 ^ Zpos (digits2_pos p).
Proof.
  induction p as [p IH|p IH|]; cbn [digits2_pos]; [| |cbn; lia];
    rewrite Pos2Z.inj_succ;
    replace (Z.succ (Zpos (digits2_pos p)) - 1)
      with (Z.succ (Zpos (digits2_pos p) - 1)) by lia;
    rewrite !Z.pow_succ_r by lia; lia.
Qed.

Lemma Zdigits2_bounds n :
  0 < n → 2 ^ (Zdigits2 n - 1) ≤ n < 2 ^ Zdigits2 n.
Proof. destruct n as [|p|p]; [lia| |lia]. intros _. apply digits2_pos_bounds. Qed.

Lemma Zdigits2_pos n : 0 < n → 0 < Zdigits2 n.
Proof. destruct n; cbn; lia. Qed.

Lemma Zdigits2_unique n d : 2 ^ (d - 1) ≤ n < 2 ^ d → 0 < n → Zdigits2 n = d.
Proof.
  intros [Hlo Hhi] Hn.
  pose proof (Zdigits2_bounds n Hn) as [Hlo' Hhi'].
  pose proof (Zdigits2_pos n Hn) as Hd.
  assert (0 < d).
  { destruct (Z_lt_le_dec 0 d); [done|].
    assert (2 ^ d ≤ 2 ^ 0) by (destruct (Z_lt_le_dec d 0);
      [rewrite Z.pow_neg_r by done; cbn; lia|apply Z.pow_le_mono_r; lia]).
    cbn in *. lia. }
  destruct (Z_lt_le_dec (Zdigits2 n) d) as [Hlt|Hge].
  - assert (2 ^ Zdigits2 n ≤ 2 ^ (d - 1)) by (apply Z.pow_le_mono_r; lia). lia.
  - destruct (Z_lt_le_dec d (Zdigits2 n)) as [Hlt|Hge']; [|lia].
    assert (2 ^ d ≤ 2 ^ (Zdigits2 n - 1)) by (apply Z.pow_le_mono_r; lia). lia.
Qed.

Lemma Zdigits2_mono n1 n2 : 0 < n1 → n1 ≤ n2 → Zdigits2 n1 ≤ Zdigits2 n2.
Proof.
  intros H1 Hle.
  pose proof (Zdigits2_bounds n1 H1) as [Hlo1 Hhi1].
  pose proof (Zdigits2_bounds n2 ltac:(lia)) as [Hlo2 Hhi2].
  pose proof (Zdigits2_pos n1 H1).
  destruct (Z_lt_le_dec (Zdigits2 n2) (Zdigits2 n1)) as [Hlt|]; [|done].
  assert (2 ^ Zdigits2 n2 ≤ 2 ^ (Zdigits2 n1 - 1))
    by (apply Z.pow_le_mono_r; lia).
  lia.
Qed.

Lemma Zdigits2_shift n j : 0 < n → 0 ≤ j → Zdigits2 (n * 2 ^ j) = Zdigits2 n + j.
Proof.
  intros Hn Hj.
  pose proof (Zdigits2_bounds n Hn) as [Hlo Hhi].
  pose proof (Zdigits2_pos n Hn).
  assert (Hp : 0 < 2 ^ j) by (apply Z.pow_pos_nonneg; lia).
  apply Zdigits2_unique; [|nia].
  replace (Zdigits2 n + j - 1) with (Zdigits2 n - 1 + j) by lia.
  rewrite !Z.pow_add_r by lia. nia.
Qed.

(** *** The right shift with rounding bits *)

Lemma pow2_split n : 0 < n → 2 ^ n = 2 ^ (n - 1) * 2.
Proof.
  intros Hn. replace n with (n - 1 + 1) at 1 by lia.
  rewrite Z.pow_add_r by lia. reflexivity.
Qed.

Lemma shr_1_nonneg m r s :
  0 ≤ m → shr_1 (Build_shr_record m r s) = Build_shr_record (m / 2) (Z.odd m) (r || s).
Proof.
  intros Hm. destruct m as [|p|p]; [done| |lia].
  destruct p as [p|p|]; cbn [shr_1 Z.odd].
  - f_equal. rewrite Pos2Z.inj_xI.
    apply Z.div_unique with 1; lia.
  - f_equal. rewrite Pos2Z.inj_xO.
    apply Z.div_unique with 0; lia.
  - reflexivity.
Qed.

Lemma shifted_start m : shifted m 0 (Build_shr_record m false false).
Proof. unfold shifted. cbn. rewrite Z.div_1_r. split_and!; [done|done|lia]. Qed.

Lemma shifted_step m n mrs :
  0 ≤ m → 0 ≤ n → shifted m n mrs → shifted m (n + 1) (shr_1 mrs).
Proof.
  intros Hm Hn (Hq & H0 & Hpos). destruct mrs as [q r s].
  cbn [shr_m shr_r shr_s] in *.
  assert (Hp : 0 < 2 ^ n) by (apply Z.pow_pos_nonneg; lia).
  rewrite shr_1_nonneg by (rewrite Hq; apply Z.div_pos; lia).
  unfold shifted. cbn [shr_m shr_r shr_s]. replace (n + 1 - 1) with n by lia.
  split_and!.
  - rewrite Hq, Z.div_div, Z.pow_add_r by lia. reflexivity.
  - lia.
  - intros _. split; [by rewrite Hq|].
    destruct (Z.eq_dec n 0) as [->|Hne].
    + destruct H0 as [-> ->]; [done|]. cbn. by rewrite Z.mod_1_r.
    + destruct Hpos as [-> ->]; [lia|].
      assert (Hp1 : 0 < 2 ^ (n - 1)) by (apply Z.pow_pos_nonneg; lia).
      rewrite (pow2_split n) by lia.
      rewrite Z.rem_mul_r by lia.
      pose proof (Z.mod_pos_bound m (2 ^ (n - 1)) Hp1).
      pose proof (Z.mod_pos_bound (m / 2 ^ (n - 1)) 2 ltac:(lia)).
      rewrite (Zmod_odd (m / 2 ^ (n - 1))).
      destruct (Z.eqb_spec (m mod 2 ^ (n - 1)) 0) as [E|E];
        destruct (Z.odd (m / 2 ^ (n - 1))); cbn;
        symmetry; first [apply negb_true_iff, Z.eqb_neq
                        | apply negb_false_iff, Z.eqb_eq]; nia.
Qed.

Lemma shifted_iter m p :
  0 ≤ m → ∀ n mrs, 0 ≤ n → shifted m n mrs →
  shifted m (n + Zpos p) (SpecFloat.iter_pos shr_1 p mrs).
Proof.
  intros Hm. induction p as [p IH|p IH|]; intros n mrs Hn Hs; cbn [SpecFloat.iter_pos].
  - replace (n + Zpos p~1) with (n + 1 + Zpos p + Zpos p) by lia.
    apply IH; [lia|]. apply IH; [lia|]. by apply shifted_step.
  - replace (n + Zpos p~0) with (n + Zpos p + Zpos p) by lia.
    apply IH; [lia|]. by apply IH.
  - by apply shifted_step.
Qed.

(** Rounding the shifted record to nearest even is [rne]. *)
Lemma shifted_round m n mrs :
  0 ≤ m → 0 ≤ n → shifted m n mrs →
  round_nearest_even (shr_m mrs) (loc_of_shr_record mrs) = rne m n.
Proof.
  intros Hm Hn (Hq & H0 & Hpos). destruct mrs as [q r s].
  cbn [shr_m shr_r shr_s] in *. subst q.
  destruct (Z.eq_dec n 0) as [->|Hne].
  - destruct H0 as [-> ->]; [done|]. cbn.
    unfold rne. rewrite Z.mod_1_r. reflexivity.
  - destruct Hpos as [-> ->]; [lia|].
    assert (Hp1 : 0 < 2 ^ (n - 1)) by (apply Z.pow_pos_nonneg; lia).
    unfold rne.
    rewrite (pow2_split n) by lia.
    rewrite Z.rem_mul_r by lia.
    pose proof (Z.mod_pos_bound m (2 ^ (n - 1)) Hp1).
    pose proof (Z.mod_pos_bound (m / 2 ^ (n - 1)) 2 ltac:(lia)).
    rewrite (Zmod_odd (m / 2 ^ (n - 1))).
    pose proof (Zmod_odd (m / 2 ^ (n - 1) / 2)) as Hodd.
    rewrite Z.div_div in Hodd by lia.
    destruct (Z.eqb_spec (m mod 2 ^ (n - 1)) 0) as [E|E];
      destruct (Z.odd (m / 2 ^ (n - 1))) eqn:E2; cbn;
      match goal with
      | |- context [?a ?= ?b] => destruct (Z.compare_spec a b)
      end; try reflexivity; try nia.
Qed.

(** *** Rounding a mantissa and an exponent to binary64 *)

Lemma pow2_pos k : 0 ≤ k → 0 < 2 ^ k.
Proof. intros. apply Z.pow_pos_nonneg; lia. Qed.

Lemma pow2_le a b : 0 ≤ a → a ≤ b → 2 ^ a ≤ 2 ^ b.
Proof. intros. apply Z.pow_le_mono_r; lia. Qed.

Lemma scaled_inf_above q k : q < 2 ^ 53 → 0 ≤ k ≤ 2045 → q * 2 ^ k < scaled_inf.
Proof.
  intros Hq Hk. unfold scaled_inf. change 2098 with (53 + 2045).
  rewrite Z.pow_add_r by lia.
  pose proof (pow2_pos k ltac:(lia)). pose proof (pow2_le k 2045 ltac:(lia) ltac:(lia)).
  pose proof (pow2_pos 53 ltac:(lia)). nia.
Qed.

Lemma scaled_inf_below q k : 2 ^ 52 ≤ q → 2046 ≤ k → scaled_inf ≤ q * 2 ^ k.
Proof.
  intros Hq Hk. unfold scaled_inf. change 2098 with (52 + 2046).
  rewrite Z.pow_add_r by lia.
  pose proof (pow2_pos 2046 ltac:(lia)). pose proof (pow2_le 2046 k ltac:(lia) ltac:(lia)).
  pose proof (pow2_pos 52 ltac:(lia)). nia.
Qed.

Lemma iter_xO mx dd : Zpos (Pos.iter xO mx dd) = Zpos mx * 2 ^ Zpos dd.
Proof.
  induction dd as [|dd IH] using Pos.peano_ind.
  - cbn [Pos.iter]. rewrite Pos2Z.inj_xO. lia.
  - rewrite Pos.iter_succ, Pos2Z.inj_xO, IH, Pos2Z.inj_succ, Z.pow_succ_r by lia.
    lia.
Qed.

Lemma shl_align_spec mx ex e' :
  snd (shl_align mx ex e') = Z.min ex e' ∧
  Zpos (fst (shl_align mx ex e')) = Zpos mx * 2 ^ (ex - Z.min ex e').
Proof.
  unfold shl_align. destruct (e' - ex) as [|p|p] eqn:Hd; cbn [fst snd].
  - replace (Z.min ex e') with ex by lia. rewrite Z.sub_diag. split; lia.
  - replace (Z.min ex e') with ex by lia. rewrite Z.sub_diag. split; lia.
  - replace (Z.min ex e') with e' by lia. split; [done|].
    rewrite iter_xO. f_equal. f_equal. lia.
Qed.

Lemma shr_fexp_exact m e :
  0 ≤ m →
  ∃ mrs,
    shr_fexp prec emax m e loc_Exact
    = (mrs, e + Z.max (fexp prec emax (Zdigits2 m + e) - e) 0) ∧
    shifted m (Z.max (fexp prec emax (Zdigits2 m + e) - e) 0) mrs.
Proof.
  intros Hm. unfold shr_fexp, shr. cbn [shr_record_of_loc].
  destruct (fexp prec emax (Zdigits2 m + e) - e) as [|p|p] eqn:Hd.
  - eexists. split; [f_equal; cbn; lia|]. cbn. apply shifted_start.
  - eexists. split; [f_equal; lia|].
    replace (Z.max (Zpos p) 0) with (0 + Zpos p) by lia.
    apply shifted_iter; [done|done|apply shifted_start].
  - eexists. split; [f_equal; cbn; lia|]. cbn. apply shifted_start.
Qed.

Lemma fexp_eq e : fexp prec emax e = Z.max (e - 53) (-1074).
Proof. reflexivity. Qed.

(** The rounding step of every binary64 operation, on a positive
    mantissa [mz] at an exponent [ez] not above the canonical one. *)
Lemma binary_round_aux_scaled s mz ez :
  0 < mz → -1074 ≤ ez → ez ≤ fexp prec emax (Zdigits2 mz + ez) →
  binary_round_aux prec emax s mz ez loc_Exact ≠ S754_nan ∧
  scaled (binary_round_aux prec emax s mz ez loc_Exact)
  = cond_Zopp s (round_scaled_pos (mz * 2 ^ (ez + 1074))).
Proof.
  intros Hmz Hez Hcanon.
  pose proof (Zdigits2_bounds mz Hmz) as [Hlo Hhi].
  pose proof (Zdigits2_pos mz Hmz) as Hdpos.
  set (d := Zdigits2 mz) in *.
  assert (HdN : Zdigits2 (mz * 2 ^ (ez + 1074)) = d + ez + 1074)
    by (rewrite Zdigits2_shift by lia; lia).
  rewrite fexp_eq in Hcanon.
  set (E := Z.max (d + ez - 53) (-1074)) in *.
  unfold round_scaled_pos. rewrite HdN.
  replace (Z.max (d + ez + 1074 - 53) 0) with (E + 1074) by lia.
  set (k := E + 1074).
  assert (Hk : 0 ≤ k) by lia.
  unfold binary_round_aux.
  destruct (shr_fexp_exact mz ez ltac:(lia)) as (mrs1 & -> & Hs1).
  fold d in Hs1 |- *. rewrite fexp_eq in Hs1 |- *. fold E in Hs1 |- *.
  replace (Z.max (E - ez) 0) with (E - ez) in Hs1 |- * by lia.
  replace (ez + (E - ez)) with E by lia.
  rewrite (shifted_round mz (E - ez) mrs1) by (done || lia).
  rewrite <- (rne_scale mz (E - ez) (ez + 1074)) by lia.
  replace (E - ez + (ez + 1074)) with k by lia.
  set (N := mz * 2 ^ (ez + 1074)).
  assert (HN : 2 ^ (d + ez + 1074 - 1) ≤ N < 2 ^ (d + ez + 1074)).
  { unfold N. pose proof (pow2_pos (ez + 1074) ltac:(lia)).
    replace (d + ez + 1074 - 1) with (d - 1 + (ez + 1074)) by lia.
    replace (d + ez + 1074) with (d + (ez + 1074)) by lia.
    rewrite (Z.pow_add_r 2 (d - 1) (ez + 1074)), (Z.pow_add_r 2 d (ez + 1074))
      by lia.
    nia. }
  set (q := rne N k).
  assert (Hq0 : 0 ≤ q).
  { apply rne_ge_multiple; [done|]. unfold N.
    pose proof (pow2_pos (ez + 1074) ltac:(lia)). nia. }
  assert (Hq53 : q ≤ 2 ^ 53).
  { apply rne_le_multiple; [done|].
    rewrite <- Z.pow_add_r by lia.
    pose proof (pow2_le (d + ez + 1074) (53 + k) ltac:(lia) ltac:(lia)). lia. }
  destruct (shr_fexp_exact q E Hq0) as (mrs2 & -> & Hs2).
  rewrite fexp_eq in Hs2 |- *.
  destruct (Z.eq_dec q 0) as [Hz|Hnz].
  - (* the sum rounds to zero *)
    rewrite Hz in Hs2 |- *. cbn [Zdigits2] in Hs2 |- *.
    replace (Z.max (Z.max (0 + E - 53) (-1074) - E) 0) with 0 in Hs2 |- * by lia.
    destruct Hs2 as (-> & _). cbn. split; [done|]. by destruct s.
  - destruct (Z.eq_dec q (2 ^ 53)) as [Hc|Hnc].
    + (* the rounding carried into a new digit *)
      rewrite Hc in Hs2 |- *.
      change (Zdigits2 (2 ^ 53)) with 54 in Hs2 |- *.
      replace (Z.max (Z.max (54 + E - 53) (-1074) - E) 0) with 1 in Hs2 |- * by lia.
      destruct Hs2 as (-> & _).
      change (2 ^ 53 / 2 ^ 1) with (Zpos (Pos.iter xO 1%positive 52)).
      cbv iota beta.
      change (emax - prec) with 971.
      destruct (Z.leb_spec (E + 1) 971) as [Hfin|Hinf].
      * split; [done|]. cbn [scaled]. f_equal.
        rewrite Z.min_l.
        -- rewrite iter_xO. replace (E + 1 + 1074) with (1 + k) by lia.
           rewrite Z.pow_add_r by lia. change (2 ^ 53) with (2 ^ 52 * 2 ^ 1). lia.
        -- apply Z.lt_le_incl.
           replace (2 ^ 53 * 2 ^ k) with (2 ^ 52 * 2 ^ (k + 1))
             by (rewrite (Z.pow_add_r 2 k 1) by lia;
                 change (2 ^ 53) with (2 ^ 52 * 2 ^ 1); lia).
           apply scaled_inf_above; [|lia].
           apply Z.pow_lt_mono_r; lia.
      * split; [done|]. cbn [scaled]. f_equal.
        rewrite Z.min_r; [done|].
        replace (2 ^ 53 * 2 ^ k) with (2 ^ 52 * 2 ^ (k + 1))
          by (rewrite (Z.pow_add_r 2 k 1) by lia;
              change (2 ^ 53) with (2 ^ 52 * 2 ^ 1); lia).
        apply scaled_inf_below; lia.
    + (* the mantissa fits *)
      assert (Hdq : Zdigits2 q ≤ 53).
      { pose proof (Zdigits2_bounds q ltac:(lia)) as [Hl _].
        destruct (Z_lt_le_dec 53 (Zdigits2 q)) as [Hgt|]; [|done].
        pose proof (pow2_le 53 (Zdigits2 q - 1) ltac:(lia) ltac:(lia)). lia. }
      replace (Z.max (Z.max (Zdigits2 q + E - 53) (-1074) - E) 0) with 0
        in Hs2 |- * by lia.
      destruct Hs2 as (-> & _).
      rewrite Z.pow_0_r, Z.div_1_r, Z.add_0_r.
      destruct q as [|p|p] eqn:Hqp; [lia| |lia].
      change (emax - prec) with 971.
      destruct (Z.leb_spec E 971) as [Hfin|Hinf].
      * split; [done|]. cbn [scaled]. f_equal.
        rewrite Z.min_l; [done|].
        apply Z.lt_le_incl, scaled_inf_above; lia.
      * split; [done|]. cbn [scaled]. f_equal.
        rewrite Z.min_r; [done|].
        apply scaled_inf_below; [|lia].
        fold q in Hqp. rewrite <- Hqp. apply rne_ge_multiple; [done|].
        rewrite <- Z.pow_add_r by lia.
        replace (52 + k) with (d + ez + 1074 - 1) by lia. lia.
Qed.

Lemma binary_round_scaled s mx ex :
  -1074 ≤ ex →
  binary_round prec emax s mx ex ≠ S754_nan ∧
  scaled (binary_round prec emax s mx ex)
  = cond_Zopp s (round_scaled_pos (Zpos mx * 2 ^ (ex + 1074))).
Proof.
  intros Hex. unfold binary_round.
  pose proof (shl_align_spec mx ex (fexp prec emax (Zpos (digits2_pos mx) + ex)))
    as [He Hm].
  destruct (shl_align mx ex (fexp prec emax (Zpos (digits2_pos mx) + ex)))
    as [mz ez].
  cbn [fst snd] in He, Hm. rewrite fexp_eq in He, Hm. rewrite <- He in Hm.
  assert (Hd : Zdigits2 (Zpos mz) + ez = Zpos (digits2_pos mx) + ex).
  { rewrite Hm, Zdigits2_shift by lia. cbn [Zdigits2]. lia. }
  assert (Hv : Zpos mz * 2 ^ (ez + 1074) = Zpos mx * 2 ^ (ex + 1074)).
  { rewrite Hm, <- Z.mul_assoc, <- Z.pow_add_r by lia. do 2 f_equal. lia. }
  rewrite <- Hv. apply binary_round_aux_scaled; [done|lia|].
  rewrite Hd, fexp_eq. lia.
Qed.

Lemma round_scaled_pos_nonneg n : 0 < n → 0 ≤ round_scaled_pos n.
Proof.
  intros Hn. unfold round_scaled_pos.
  set (k := Z.max (Zdigits2 n - 53) 0).
  pose proof (pow2_pos k ltac:(lia)).
  assert (0 ≤ rne n k) by (apply rne_ge_multiple; lia).
  assert (0 < scaled_inf) by (apply pow2_pos; lia).
  apply Z.min_glb; nia.
Qed.

Lemma round_scaled_pos_mono n1 n2 :
  0 < n1 → n1 ≤ n2 → round_scaled_pos n1 ≤ round_scaled_pos n2.
Proof.
  intros H1 Hle. unfold round_scaled_pos.
  pose proof (Zdigits2_mono n1 n2 H1 Hle) as Hd.
  pose proof (Zdigits2_bounds n1 H1) as [Hlo1 Hhi1].
  pose proof (Zdigits2_bounds n2 ltac:(lia)) as [Hlo2 Hhi2].
  pose proof (Zdigits2_pos n1 H1) as Hp1.
  set (d1 := Zdigits2 n1) in *. set (d2 := Zdigits2 n2) in *.
  set (k1 := Z.max (d1 - 53) 0). set (k2 := Z.max (d2 - 53) 0).
  apply Z.min_le_compat_r.
  destruct (Z.eq_dec k1 k2) as [Heq|Hne].
  - rewrite Heq. pose proof (pow2_pos k2 ltac:(lia)).
    pose proof (rne_mono n1 n2 k2 ltac:(lia) Hle). nia.
  - assert (Hk : k1 < k2) by lia.
    assert (Hk2 : k2 = d2 - 53) by lia.
    apply Z.le_trans with (2 ^ (d2 - 1)).
    + assert (rne n1 k1 ≤ 2 ^ (d2 - 1 - k1)).
      { apply rne_le_multiple; [lia|].
        rewrite <- Z.pow_add_r by lia.
        replace (d2 - 1 - k1 + k1) with (d2 - 1) by lia.
        pose proof (pow2_le d1 (d2 - 1) ltac:(lia) ltac:(lia)). lia. }
      pose proof (pow2_pos k1 ltac:(lia)).
      replace (2 ^ (d2 - 1)) with (2 ^ (d2 - 1 - k1) * 2 ^ k1)
        by (rewrite <- Z.pow_add_r by lia; f_equal; lia).
      nia.
    + assert (2 ^ 52 ≤ rne n2 k2).
      { apply rne_ge_multiple; [lia|].
        rewrite <- Z.pow_add_r by lia.
        replace (52 + k2) with (d2 - 1) by lia. lia. }
      pose proof (pow2_pos k2 ltac:(lia)).
      replace (2 ^ (d2 - 1)) with (2 ^ 52 * 2 ^ k2)
        by (rewrite <- Z.pow_add_r by lia; f_equal; lia).
      nia.
Qed.

Lemma round_scaled_mono n1 n2 : n1 ≤ n2 → round_scaled n1 ≤ round_scaled n2.
Proof.
  intros Hle.
  destruct n1 as [|p1|p1], n2 as [|p2|p2]; cbn [round_scaled]; try lia.
  - apply round_scaled_pos_nonneg; lia.
  - by apply round_scaled_pos_mono.
  - pose proof (round_scaled_pos_nonneg (Zpos p1)); lia.
  - pose proof (round_scaled_pos_nonneg (Zpos p1)).
    pose proof (round_scaled_pos_nonneg (Zpos p2)). lia.
  - pose proof (round_scaled_pos_mono (Zpos p2) (Zpos p1)). lia.
Qed.

Lemma round_scaled_bounds n : - scaled_inf ≤ round_scaled n ≤ scaled_inf.
Proof.
  assert (0 < scaled_inf) by (apply pow2_pos; lia).
  assert (∀ m, 0 < m → 0 ≤ round_scaled_pos m ≤ scaled_inf).
  { intros m Hm. split; [by apply round_scaled_pos_nonneg|].
    unfold round_scaled_pos. apply Z.le_min_r. }
  destruct n as [|p|p]; cbn [round_scaled]; [lia| |];
    specialize (H0 (Zpos p)); lia.
Qed.

Lemma binary_normalize_scaled m e :
  -1074 ≤ e →
  binary_normalize prec emax m e false ≠ S754_nan ∧
  scaled (binary_normalize prec emax m e false) = round_scaled (m * 2 ^ (e + 1074)).
Proof.
  intros He. pose proof (pow2_pos (e + 1074) ltac:(lia)) as Hp.
  destruct m as [|p|p]; cbn [binary_normalize].
  - done.
  - destruct (binary_round_scaled false p e He) as [Hn ->]. split; [done|].
    cbn [cond_Zopp]. destruct (Zpos p * 2 ^ (e + 1074)) eqn:E; [lia|done|lia].
  - destruct (binary_round_scaled true p e He) as [Hn ->]. split; [done|].
    cbn [cond_Zopp].
    replace (Zneg p * 2 ^ (e + 1074)) with (- (Zpos p * 2 ^ (e + 1074))) by lia.
    destruct (Zpos p * 2 ^ (e + 1074)) eqn:E; [lia|done|lia].
Qed.

(** *** Valid binary64 numbers and their order *)

Lemma valid_finite s m e :
  valid_binary (S754_finite s m e) = true →
  -1074 ≤ e ≤ 971 ∧ Zpos (digits2_pos m) ≤ 53 ∧
  (Zpos (digits2_pos m) = 53 ∨ e = -1074).
Proof.
  cbn [SpecFloat.valid_binary]. unfold bounded, canonical_mantissa.
  rewrite andb_true_iff, Z.eqb_eq, Z.leb_le, fexp_eq.
  change (emax - prec) with 971. lia.
Qed.

Lemma valid_finite_range s m e :
  valid_binary (S754_finite s m e) = true →
  0 < Zpos m * 2 ^ (e + 1074) < scaled_inf.
Proof.
  intros (He & Hd & _)%valid_finite.
  pose proof (digits2_pos_bounds m) as [_ Hhi].
  pose proof (pow2_pos (e + 1074) ltac:(lia)).
  split; [lia|]. apply scaled_inf_above; [|lia].
  pose proof (pow2_le (Zpos (digits2_pos m)) 53 ltac:(lia) ltac:(lia)). lia.
Qed.

Lemma valid_finite_round s m e :
  valid_binary (S754_finite s m e) = true →
  round_scaled_pos (Zpos m * 2 ^ (e + 1074)) = Zpos m * 2 ^ (e + 1074).
Proof.
  intros Hv. pose proof (valid_finite_range s m e Hv) as Hr.
  apply valid_finite in Hv as (He & Hd & Hc).
  unfold round_scaled_pos. rewrite Zdigits2_shift by lia. cbn [Zdigits2].
  replace (Z.max (Zpos (digits2_pos m) + (e + 1074) - 53) 0) with (e + 1074) by lia.
  rewrite rne_exact by lia. lia.
Qed.

(** A valid number with the smaller exponent is the smaller number. *)
Lemma valid_finite_exponent_order s1 m1 e1 s2 m2 e2 :
  valid_binary (S754_finite s1 m1 e1) = true →
  valid_binary (S754_finite s2 m2 e2) = true →
  e1 < e2 →
  Zpos m1 * 2 ^ (e1 + 1074) < Zpos m2 * 2 ^ (e2 + 1074).
Proof.
  intros (He1 & Hd1 & Hc1)%valid_finite (He2 & Hd2 & Hc2)%valid_finite Hlt.
  pose proof (digits2_pos_bounds m1) as [_ Hhi1].
  pose proof (digits2_pos_bounds m2) as [Hlo2 _].
  assert (Hd : Zpos (digits2_pos m2) = 53) by lia. rewrite Hd in Hlo2.
  pose proof (pow2_le (Zpos (digits2_pos m1)) 53 ltac:(lia) ltac:(lia)).
  pose proof (pow2_pos (e1 + 1074) ltac:(lia)).
  replace (e2 + 1074) with (e2 - e1 + (e1 + 1074)) by lia.
  rewrite (Z.pow_add_r 2 (e2 - e1) (e1 + 1074)) by lia.
  pose proof (pow2_le 1 (e2 - e1) ltac:(lia) ltac:(lia)).
  change (2 ^ 1) with 2 in *. change (2 ^ (53 - 1)) with (2 ^ 52) in *.
  assert (Hm : Zpos m1 < Zpos m2 * 2 ^ (e2 - e1)) by nia.
  rewrite Z.mul_assoc. by apply Z.mul_lt_mono_pos_r.
Qed.

Lemma SFleb_true_not_nan a b :
  SFleb a b = true → a ≠ S754_nan ∧ b ≠ S754_nan.
Proof. unfold SFleb. destruct a, b; cbn; done. Qed.

Lemma SFleb_scaled a b :
  valid_binary a = true → valid_binary b = true →
  a ≠ S754_nan → b ≠ S754_nan →
  SFleb a b = (scaled a <=? scaled b).
Proof.
  intros Ha Hb Hna Hnb.
  assert (Hinf : 0 < scaled_inf) by (apply pow2_pos; lia).
  destruct a as [sa|sa| |sa ma ea], b as [sb|sb| |sb mb eb]; try done;
    try pose proof (valid_finite_range _ _ _ Ha) as Ra;
    try pose proof (valid_finite_range _ _ _ Hb) as Rb;
    unfold SFleb; cbn [SFcompare scaled];
    try (destruct sa); try (destruct sb); cbn [cond_Zopp];
    try (symmetry; first [apply Z.leb_le; lia | apply Z.leb_gt; lia]).
  - (* both negative *)
    destruct (Z.compare_spec ea eb) as [->|Hlt|Hgt].
    + change (Pos.compare_cont Eq ma mb) with (Zpos ma ?= Zpos mb).
      pose proof (pow2_pos (eb + 1074) ltac:(apply valid_finite in Hb; lia)).
      destruct (Z.compare_spec (Zpos ma) (Zpos mb)); cbn [CompOpp];
        symmetry; first [apply Z.leb_le; nia | apply Z.leb_gt; nia].
    + pose proof (valid_finite_exponent_order _ _ _ _ _ _ Ha Hb Hlt).
      symmetry. apply Z.leb_gt. lia.
    + pose proof (valid_finite_exponent_order _ _ _ _ _ _ Hb Ha Hgt).
      symmetry. apply Z.leb_le. lia.
  - (* both positive *)
    destruct (Z.compare_spec ea eb) as [->|Hlt|Hgt].
    + change (Pos.compare_cont Eq ma mb) with (Zpos ma ?= Zpos mb).
      pose proof (pow2_pos (eb + 1074) ltac:(apply valid_finite in Hb; lia)).
      destruct (Z.compare_spec (Zpos ma) (Zpos mb));
        symmetry; first [apply Z.leb_le; nia | apply Z.leb_gt; nia].
    + pose proof (valid_finite_exponent_order _ _ _ _ _ _ Ha Hb Hlt).
      symmetry. apply Z.leb_le. lia.
    + pose proof (valid_finite_exponent_order _ _ _ _ _ _ Hb Ha Hgt).
      symmetry. apply Z.leb_gt. lia.
Qed.

(** *** Addition *)

Lemma round_scaled_valid f :
  valid_binary f = true → finite_or_zero f → round_scaled (scaled f) = scaled f.
Proof.
  intros Hv Hf. destruct f as [s|s| |s m e]; try done.
  pose proof (valid_finite_range s m e Hv) as Hr.
  pose proof (valid_finite_round s m e Hv) as Hround.
  cbn [scaled].
  destruct (Zpos m * 2 ^ (e + 1074)) as [|p|p] eqn:E; [lia| |lia].
  destruct s; cbn [cond_Zopp]; rewrite ?Pos2Z.opp_pos; cbn [round_scaled];
    by rewrite Hround.
Qed.

Lemma cond_Zopp_mul s a b : cond_Zopp s a * b = cond_Zopp s (a * b).
Proof. destruct s; cbn; lia. Qed.

Lemma SFadd_scaled x c :
  valid_binary x = true → valid_binary c = true →
  finite_or_zero x → finite_or_zero c →
  SFadd prec emax x c ≠ S754_nan ∧
  scaled (SFadd prec emax x c) = round_scaled (scaled x + scaled c).
Proof.
  intros Hx Hc Fx Fc.
  destruct x as [sx|sx| |sx mx ex], c as [sc|sc| |sc mc ec]; try done.
  - destruct sx, sc; done.
  - split; [done|]. cbn [SFadd]. rewrite Z.add_0_l.
    symmetry. by apply round_scaled_valid.
  - split; [done|]. cbn [SFadd].
    change (scaled (S754_zero sc)) with 0. rewrite Z.add_0_r.
    symmetry. by apply round_scaled_valid.
  - pose proof (valid_finite _ _ _ Hx) as (Hex & _).
    pose proof (valid_finite _ _ _ Hc) as (Hec & _).
    cbn [SFadd].
    destruct (binary_normalize_scaled
                (cond_Zopp sx (Zpos (fst (shl_align mx ex (Z.min ex ec))))
                 + cond_Zopp sc (Zpos (fst (shl_align mc ec (Z.min ex ec)))))
                (Z.min ex ec) ltac:(lia)) as [Hn ->].
    split; [done|]. f_equal.
    pose proof (shl_align_spec mx ex (Z.min ex ec)) as [_ ->].
    pose proof (shl_align_spec mc ec (Z.min ex ec)) as [_ ->].
    replace (Z.min ex (Z.min ex ec)) with (Z.min ex ec) by lia.
    replace (Z.min ec (Z.min ex ec)) with (Z.min ex ec) by lia.
    cbn [scaled].
    rewrite Z.mul_add_distr_r, !cond_Zopp_mul, <- !Z.mul_assoc, <- !Z.pow_add_r
      by lia.
    do 4 f_equal; lia.
Qed.

(** *** The primitive floats *)

Lemma leb_fval x y :
  (x <=? y)%float = true ↔ ¬ fnan x ∧ ¬ fnan y ∧ fval x ≤ fval y.
Proof.
  rewrite leb_spec. unfold fnan, fval. split.
  - intros H. pose proof (SFleb_true_not_nan _ _ H) as [Hx Hy].
    rewrite SFleb_scaled in H by (apply Prim2SF_valid || done).
    split_and!; [done..|]. by apply Z.leb_le.
  - intros (Hx & Hy & Hle).
    rewrite SFleb_scaled by (apply Prim2SF_valid || done).
    by apply Z.leb_le.
Qed.

Lemma leb_trans x y z :
  (x <=? y)%float = true → (y <=? z)%float = true → (x <=? z)%float = true.
Proof. rewrite !leb_fval. intros (? & ? & ?) (? & ? & ?). split_and!; [done..|lia]. Qed.

(** Adding a finite number is monotone. *)
Lemma add_mono c x y :
  finite_or_zero (Prim2SF c) →
  (x <=? y)%float = true → (x + c <=? y + c)%float = true.
Proof.
  intros Fc. rewrite !leb_fval. unfold fnan, fval. rewrite !add_spec.
  unfold SF64add.
  pose proof (Prim2SF_valid x) as Vx. pose proof (Prim2SF_valid y) as Vy.
  pose proof (Prim2SF_valid c) as Vc.
  assert (Hinf : 0 < scaled_inf) by (apply pow2_pos; lia).
  intros (Hx & Hy & Hle).
  assert (Hfin : ∀ f, valid_binary f = true → finite_or_zero f →
                      - scaled_inf < scaled f < scaled_inf).
  { intros [s|s| |s m e] Hv Hf; [cbn [scaled]; lia|done|done|].
    pose proof (valid_finite_range s m e Hv).
    cbn [scaled]. destruct s; cbn [cond_Zopp]; lia. }
  assert (Hsum : ∀ f, valid_binary f = true → finite_or_zero f →
            SFadd prec emax f (Prim2SF c) ≠ S754_nan ∧
            - scaled_inf ≤ scaled (SFadd prec emax f (Prim2SF c)) ≤ scaled_inf).
  { intros f Hv Hf. destruct (SFadd_scaled f (Prim2SF c) Hv Vc Hf Fc) as [Hn ->].
    split; [done|]. apply round_scaled_bounds. }
  assert (Hinfty : ∀ s, SFadd prec emax (S754_infinity s) (Prim2SF c)
                        = S754_infinity s).
  { intros s. destruct (Prim2SF c); try done. }
  destruct (Prim2SF x) as [sx|sx| |sx mx ex] eqn:Ex; [|clear Ex|done|];
    (destruct (Prim2SF y) as [sy|sy| |sy my ey] eqn:Ey; [|clear Ey|done|]);
    rewrite ?Hinfty;
    try (match goal with
         | |- context [SFadd prec emax (S754_infinity _) _] => fail 1
         | _ =>
           destruct (SFadd_scaled _ (Prim2SF c) Vx Vc I Fc) as [Hnx ->];
           destruct (SFadd_scaled _ (Prim2SF c) Vy Vc I Fc) as [Hny ->];
           split_and!; [done..|]; apply round_scaled_mono; lia
         end).
  all: try (pose proof (Hfin _ Vx I) as Bx); try (pose proof (Hfin _ Vy I) as By).
  all: try (pose proof (Hsum _ Vx I) as [Hnx Sx]);
       try (pose proof (Hsum _ Vy I) as [Hny Sy]).
  all: split_and!; try done.
  all: cbn [scaled] in *; try destruct sx; try destruct sy; cbn [cond_Zopp] in *; lia.
Qed.

(** ** Properties of the dispatcher *)

Section DispatchProperties.

Context {World : Type}.
Variable transport :
  AlertChannel -> Alert -> option string -> World -> bool * World.
Variable socket_send : nat -> Alert -> World -> bool * World.

Local Abbreviation send_via' := (send_via transport socket_send).
Local Abbreviation send_alert_step' := (send_alert_step transport socket_send).
Local Abbreviation send_alert_loop' := (send_alert_loop transport socket_send).
Local Abbreviation send_alert' := (send_alert transport socket_send).

Lemma send_alert_email_effect a email url (env : @Env World) ok a1 env1 :
  send_alert_email transport a email url env = (ok, a1, env1) →
  sender_effect a a1 ∧ (ok = false → a1 = a) ∧ (ok = true → status a1 = "sent").
Proof.
  unfold send_alert_email, sender_effect.
  destruct (call_transport transport EMAIL a email env) as [[] e];
    intros [= <- <- <-]; cbn; intuition congruence.
Qed.

Lemma send_via_effect mgr cc a email url (env : @Env World) o a1 env1 :
  send_via' mgr cc a email url env = (o, a1, env1) →
  sender_effect a a1 ∧ (channel cc ≠ EMAIL → a1 = a) ∧ (o = Raised → a1 = a).
Proof.
  unfold send_via. intros H.
  destruct (channel cc) eqn:Hc;
    [| repeat case_match; simplify_eq; unfold sender_effect;
       repeat split; auto ..].
  destruct (send_alert_email transport a email url env) as [[ok a2] e2] eqn:He.
  injection H as <- <- <-.
  apply send_alert_email_effect in He as (He & _ & _).
  split; [exact He|]. split; intros; congruence.
Qed.

(** The bookkeeping of one loop iteration, branch by branch. *)
Lemma send_alert_step_delivered mgr cc email url results a (env : @Env World) a1 env1 :
  send_via' mgr cc a email url env = (Returned true, a1, env1) →
  send_alert_step' mgr cc email url (results, a, env)
  = (<[value (channel cc) := true]> results,
     set_delivery_status
       (<[value (channel cc) := "delivered"]> (delivery_status a1)) a1,
     env1).
Proof. unfold send_alert_step. intros ->. reflexivity. Qed.

Lemma send_alert_step_failed mgr cc email url results a (env : @Env World) a1 env1 :
  send_via' mgr cc a email url env = (Returned false, a1, env1) →
  ∃ a2,
    send_alert_step' mgr cc email url (results, a, env)
    = (<[value (channel cc) := false]> results, a2, env1) ∧
    delivery_status a2 !! value (channel cc) = Some "failed" ∧
    retry_count a2 !! value (channel cc)
    = Some (retry_count_get a (value (channel cc)) + 1).
Proof.
  intros H. unfold send_alert_step. rewrite H. cbn.
  eexists. split; [reflexivity|]. cbn.
  apply send_via_effect in H as ((_ & _ & _ & _ & Hr & _) & _).
  rewrite !lookup_insert_eq. unfold retry_count_get. cbn. rewrite Hr. done.
Qed.

Lemma send_alert_step_raised mgr cc email url results a (env : @Env World) a1 env1 :
  send_via' mgr cc a email url env = (Raised, a1, env1) →
  ∃ a2,
    send_alert_step' mgr cc email url (results, a, env)
    = (<[value (channel cc) := false]> results, a2, env1) ∧
    delivery_status a2 !! value (channel cc) = Some "error" ∧
    retry_count a2 = retry_count a.
Proof.
  intros H. unfold send_alert_step. rewrite H. cbn.
  eexists. split; [reflexivity|]. cbn.
  apply send_via_effect in H as ((_ & _ & _ & _ & Hr & _) & _).
  by rewrite lookup_insert_eq.
Qed.

(** A loop iteration leaves the status alone or sets it to [sent], and
    leaves it alone on every channel but e-mail. *)
Lemma send_alert_step_status mgr cc email url results a (env : @Env World) r1 a1 env1 :
  send_alert_step' mgr cc email url (results, a, env) = (r1, a1, env1) →
  id a1 = id a ∧ expires_at a1 = expires_at a ∧ channels a1 = channels a ∧
  (status a1 = status a ∨ status a1 = "sent") ∧
  (channel cc ≠ EMAIL → status a1 = status a).
Proof.
  unfold send_alert_step.
  destruct (send_via' mgr cc a email url env) as [[o a2] e2] eqn:Hv.
  apply send_via_effect in Hv as ((Hi & He & Hc & _ & _ & Hs) & Hne & _).
  destruct o as [[]|]; intros [= <- <- <-]; cbn;
    (repeat split; [done..| |]);
    intros; try rewrite (Hne ltac:(assumption)); auto.
Qed.

Lemma send_alert_loop_status mgr ccs email url results a (env : @Env World) r1 a1 env1 :
  send_alert_loop' mgr ccs email url (results, a, env) = (r1, a1, env1) →
  id a1 = id a ∧ expires_at a1 = expires_at a ∧ channels a1 = channels a ∧
  (status a1 = status a ∨ status a1 = "sent") ∧
  (Forall (fun cc => enabled cc = true → channel cc ≠ EMAIL) ccs →
   status a1 = status a).
Proof.
  revert results a env.
  induction ccs as [|cc rest IH]; intros results a env; cbn [send_alert_loop].
  - intros [= <- <- <-]. repeat split; auto.
  - destruct (enabled cc) eqn:Hen.
    + destruct (send_alert_step' mgr cc email url (results, a, env))
        as [[r2 a2] e2] eqn:Hstep.
      intros H. apply IH in H as (Hi & He & Hc & Hs & Hn).
      apply send_alert_step_status in Hstep as (Hi2 & He2 & Hc2 & Hs2 & Hn2).
      repeat split; [congruence..| |].
      * destruct Hs as [->| ->]; auto.
      * intros Hall. inversion Hall as [|? ? Hcc Hrest]; subst.
        rewrite (Hn Hrest). apply Hn2. auto.
    + intros H. apply IH in H as (Hi & He & Hc & Hs & Hn).
      repeat split; auto.
      intros Hall. inversion Hall; subst. auto.
Qed.

(** [send_alert] itself: it is a total function (it returns, and raises
    nothing), it changes the status to [sent] or not at all, and not at
    all when no enabled channel is the e-mail channel. *)
Lemma send_alert_status mgr a email url (env : @Env World) r1 a1 env1 :
  send_alert' mgr a email url env = (r1, a1, env1) →
  id a1 = id a ∧ expires_at a1 = expires_at a ∧ channels a1 = channels a ∧
  (status a1 = status a ∨ status a1 = "sent") ∧
  (Forall (fun cc => enabled cc = true → channel cc ≠ EMAIL) (channels a) →
   status a1 = status a).
Proof.
  unfold send_alert.
  destruct (send_alert_loop' mgr (channels a) email url (∅, a, env))
    as [[r2 a2] e2] eqn:Hl.
  intros [= <- <- <-]. by apply send_alert_loop_status in Hl.
Qed.

End DispatchProperties.

(** ** Properties of the retry sweep *)

Section RetryProperties.

Context {World : Type}.
Variable transport :
  AlertChannel -> Alert -> option string -> World -> bool * World.
Variable socket_send : nat -> Alert -> World -> bool * World.

Local Abbreviation retry_via' := (retry_via transport socket_send).
Local Abbreviation retry_channels' := (retry_channels transport socket_send).
Local Abbreviation retry_alerts' := (retry_alerts transport socket_send).

Lemma retry_effect_refl a : retry_effect a a.
Proof. unfold retry_effect. repeat split; auto. Qed.

Lemma retry_effect_trans a b c :
  retry_effect a b → retry_effect b c → retry_effect a c.
Proof.
  intros (Hi & He & Hc & Hs & Hn) (Hi' & He' & Hc' & Hs' & Hn').
  unfold retry_effect. repeat split; try congruence.
  - destruct Hs' as [->| ->]; auto.
  - intros H. apply Hn', Hn, H.
  - destruct (Hn name) as [_ (H1 & H2)]; [done|].
    destruct (Hn' name) as [_ (H3 & _)]; [|congruence].
    unfold retry_count_get in *. by rewrite H2.
  - destruct (Hn name) as [_ (H1 & H2)]; [done|].
    destruct (Hn' name) as [_ (_ & H3)]; [|congruence].
    unfold retry_count_get in *. by rewrite H2.
Qed.

Lemma retry_via_effect mgr cc a (env : @Env World) o a1 env1 :
  retry_via' mgr cc a env = (o, a1, env1) →
  sender_effect a a1 ∧ (o = Raised → a1 = a).
Proof.
  unfold retry_via. intros H.
  destruct (channel cc) eqn:Hc;
    [| repeat case_match; simplify_eq; unfold sender_effect;
       repeat split; auto ..].
  destruct (config cc !! "email") as [addr|];
    [|simplify_eq; unfold sender_effect; repeat split; auto].
  destruct (send_alert_email transport a addr _ env) as [[ok a2] e2] eqn:He.
  injection H as <- <- <-.
  apply send_alert_email_effect in He as (He & _ & _).
  split; [exact He|]. intros; congruence.
Qed.

Lemma needs_retry_below a name : needs_retry a name = true → retry_count_get a name < 3.
Proof.
  unfold needs_retry. destruct (delivery_status a !! name); [|done].
  rewrite andb_true_iff, Z.ltb_lt. tauto.
Qed.

(** One retried channel: the guard held, the sender returned, the
    outcome was written. *)
Lemma retry_write_effect a a1 name (success : bool) :
  needs_retry a name = true →
  sender_effect a a1 →
  retry_effect a
    (if success
     then set_delivery_status (<[name := "delivered"]> (delivery_status a1)) a1
     else set_retry_count
            (<[name := retry_count_get a1 name + 1]> (retry_count a1)) a1).
Proof.
  intros Hg%needs_retry_below (Hi & He & Hc & Hd & Hr & Hs).
  assert (Hget : ∀ n, retry_count_get a1 n = retry_count_get a n)
    by (intros n; unfold retry_count_get; by rewrite Hr).
  unfold retry_effect.
  destruct success; cbn; (split_and!; [done..|]); intros n;
    unfold retry_count_get; cbn; rewrite ?Hr, ?Hd.
  - split; [done|]. intros H3. split; [|done].
    destruct (decide (name = n)) as [->|Hne]; [unfold retry_count_get in *; lia|].
    by rewrite lookup_insert_ne.
  - destruct (decide (name = n)) as [->|Hne].
    + rewrite lookup_insert_eq. cbn. unfold retry_count_get in Hg. split; lia.
    + rewrite lookup_insert_ne by done. auto.
Qed.

Lemma retry_channels_effect mgr ccs a (env : @Env World) c a1 env1 :
  retry_channels' mgr ccs a env = (c, a1, env1) → retry_effect a a1.
Proof.
  revert a env.
  induction ccs as [|cc rest IH]; intros a env; cbn [retry_channels].
  - intros [= <- <- <-]. apply retry_effect_refl.
  - destruct (needs_retry a (value (channel cc))) eqn:Hg; [|apply IH].
    destruct (retry_via' mgr cc a env) as [[o a2] e2] eqn:Hv.
    apply retry_via_effect in Hv as (Hse & Hraised).
    destruct o as [success|].
    + intros H%IH. eapply retry_effect_trans; [|exact H].
      by apply retry_write_effect.
    + intros [= <- <- <-]. rewrite Hraised by done. apply retry_effect_refl.
Qed.

(** The sweep keeps every entry of [self.alerts] in place, under its
    key, and acts on each alert as [retry_effect] says, also when an
    exception ends it early. *)
Lemma retry_alerts_effect mgr d (env : @Env World) c d1 env1 :
  retry_alerts' mgr d env = (c, d1, env1) →
  Forall2 (fun e e1 => fst e1 = fst e ∧ retry_effect (snd e) (snd e1)) d d1.
Proof.
  revert env c d1 env1.
  induction d as [|[k a] rest IH]; intros env c d1 env1; cbn [retry_alerts].
  - intros [= <- <- <-]. constructor.
  - destruct (retry_channels' mgr (channels a) a env) as [[c2 a2] e2] eqn:Hc.
    apply retry_channels_effect in Hc.
    destruct c2.
    + destruct (retry_alerts' mgr rest e2) as [[c3 rest3] e3] eqn:Hr.
      intros [= <- <- <-]. constructor; [done|]. eapply IH, Hr.
    + intros [= <- <- <-]. constructor; [done|].
      apply Forall2_same_length_lookup_2; [done|].
      intros i x y Hx Hy. assert (x = y) as -> by congruence.
      split; [done|apply retry_effect_refl].
Qed.

End RetryProperties.

(** ** Properties of the alert dict and of the expiry sweep *)

Lemma dict_get_set key a d : dict_get key (dict_set key a d) = Some a.
Proof.
  induction d as [|[k v] d IH]; cbn.
  - by rewrite String.eqb_refl.
  - destruct (String.eqb k key) eqn:E; cbn; rewrite E; auto.
Qed.

Lemma dict_set_alter f key a d :
  dict_get key d = Some a → dict_set key (f a) d = dict_alter f key d.
Proof.
  induction d as [|[k v] d IH]; cbn; [done|].
  destruct (String.eqb k key); [by intros [= ->]|].
  intros H. by rewrite IH.
Qed.

Lemma dict_alter_missing f key d : dict_get key d = None → dict_alter f key d = d.
Proof.
  induction d as [|[k v] d IH]; cbn; [done|].
  destruct (String.eqb k key); [done|]. intros H. by rewrite IH.
Qed.

Lemma dict_get_alter f key key' d :
  dict_get key' (dict_alter f key d)
  = if String.eqb key key' then f <$> dict_get key' d else dict_get key' d.
Proof.
  induction d as [|[k v] d IH]; cbn; [by destruct (String.eqb key key')|].
  destruct (String.eqb k key) eqn:E1; cbn.
  - apply String.eqb_eq in E1 as ->.
    destruct (String.eqb key key'); cbn; done.
  - destruct (String.eqb k key') eqn:E2; [|exact IH].
    apply String.eqb_eq in E2 as ->.
    rewrite String.eqb_sym, E1. done.
Qed.

Lemma dict_alter_idemp f key d :
  (∀ a, f (f a) = f a) → dict_alter f key (dict_alter f key d) = dict_alter f key d.
Proof.
  intros Hf. induction d as [|[k v] d IH]; cbn; [done|].
  destruct (String.eqb k key) eqn:E; cbn; rewrite E; by rewrite ?Hf, ?IH.
Qed.

Lemma dict_alter_comm f k1 k2 d :
  dict_alter f k1 (dict_alter f k2 d) = dict_alter f k2 (dict_alter f k1 d).
Proof.
  induction d as [|[k v] d IH]; cbn; [done|].
  destruct (String.eqb k k1) eqn:E1, (String.eqb k k2) eqn:E2; cbn;
    rewrite ?E1, ?E2; by rewrite ?IH.
Qed.

(** An altered dict has the same keys in the same places, and each value
    is the old one or its image. *)
Lemma dict_alter_entries f key d :
  Forall2 (fun e e1 => fst e1 = fst e ∧ (snd e1 = snd e ∨ snd e1 = f (snd e)))
    d (dict_alter f key d).
Proof.
  induction d as [|[k v] d IH]; cbn; [constructor|].
  destruct (String.eqb k key).
  - constructor; [cbn; auto|].
    apply Forall2_same_length_lookup_2; [done|].
    intros i x y Hx Hy. assert (x = y) as -> by congruence. auto.
  - constructor; [cbn; auto|done].
Qed.

Lemma set_status_idemp v a : set_status v (set_status v a) = set_status v a.
Proof. reflexivity. Qed.

Lemma set_status_same a : set_status (status a) a = a.
Proof. by destruct a. Qed.

Section SweepProperties.

Context {World : Type}.

Local Abbreviation expire := (set_status "expired").

Lemma expire_one_alter d (env : @Env World) k :
  expire_one (d, env) k
  = (dict_alter expire k d,
     save_all (expiry_saves [k] d) env).
Proof.
  unfold expire_one, expiry_saves, save_all. cbn.
  destruct (dict_get k d) as [a|] eqn:Hg; cbn.
  - by rewrite (dict_set_alter expire).
  - by rewrite dict_alter_missing.
Qed.

Lemma expiry_saves_alter ids k d :
  expiry_saves ids (dict_alter expire k d) = expiry_saves ids d.
Proof.
  unfold expiry_saves. induction ids as [|k' ids IH]; cbn; [done|].
  rewrite IH, dict_get_alter.
  destruct (String.eqb k k'); [|done].
  by destruct (dict_get k' d).
Qed.

Lemma expiry_saves_dict ids' ids d :
  expiry_saves ids' (expiry_dict ids d) = expiry_saves ids' d.
Proof.
  unfold expiry_dict. revert d.
  induction ids as [|k ids IH]; intros d; cbn; [done|].
  by rewrite IH, expiry_saves_alter.
Qed.

Lemma save_all_app s1 s2 (env : @Env World) :
  save_all (s1 ++ s2) env = save_all s2 (save_all s1 env).
Proof. unfold save_all. apply fold_left_app. Qed.

Lemma expiry_saves_cons k ids d :
  expiry_saves (k :: ids) d = (expiry_saves [k] d ++ expiry_saves ids d)%list.
Proof. unfold expiry_saves. cbn. by destruct (dict_get k d). Qed.

(** The loop, in closed form. *)
Lemma expiry_loop ids d (env : @Env World) :
  fold_left expire_one ids (d, env)
  = (expiry_dict ids d, save_all (expiry_saves ids d) env).
Proof.
  revert d env. induction ids as [|k ids IH]; intros d env; [done|].
  cbn [fold_left]. rewrite expire_one_alter, IH.
  f_equal.
  by rewrite expiry_saves_alter, (expiry_saves_cons k ids), save_all_app.
Qed.

Lemma expiry_dict_entries ids d :
  Forall2 (fun e e1 => fst e1 = fst e ∧ (snd e1 = snd e ∨ snd e1 = expire (snd e)))
    d (expiry_dict ids d).
Proof.
  unfold expiry_dict. revert d.
  induction ids as [|k ids IH]; intros d; cbn.
  - apply Forall2_same_length_lookup_2; [done|].
    intros i x y Hx Hy. assert (x = y) as -> by congruence. auto.
  - pose proof (dict_alter_entries expire k d) as H1.
    pose proof (IH (dict_alter expire k d)) as H2.
    eapply Forall2_trans; [|exact H1|exact H2].
    intros x y z (Hk & Hv) (Hk' & Hv'). split; [congruence|].
    destruct Hv' as [->| ->], Hv as [->| ->]; auto.
Qed.

Lemma expired_ids_entries now d d1 :
  Forall2 (fun e e1 => fst e1 = fst e ∧ (snd e1 = snd e ∨ snd e1 = expire (snd e)))
    d d1 →
  expired_ids now d1 = expired_ids now d.
Proof.
  unfold expired_ids. induction 1 as [|e e1 d d1 (Hk & Hv) _ IH]; [done|].
  assert (expires_at (snd e1) = expires_at (snd e)) as He
    by (destruct Hv as [->| ->]; done).
  rewrite !filter_cons, He.
  destruct (decide (expires_at (snd e) < now)); cbn; [f_equal; [done|]|]; exact IH.
Qed.

Lemma expiry_dict_absorb ids k d :
  k ∈ ids → dict_alter expire k (expiry_dict ids d) = expiry_dict ids d.
Proof.
  unfold expiry_dict. revert d.
  induction ids as [|k' ids IH]; intros d Hin; [by apply elem_of_nil in Hin|].
  cbn [fold_left].
  apply elem_of_cons in Hin as [->|Hin]; [|by apply IH].
  clear IH. revert d. induction ids as [|k2 ids IH]; intros d; cbn [fold_left].
  - by apply dict_alter_idemp.
  - rewrite dict_alter_comm. apply IH.
Qed.

Lemma expiry_dict_twice ids' ids d :
  ids' ⊆ ids → expiry_dict ids' (expiry_dict ids d) = expiry_dict ids d.
Proof.
  intros Hsub. induction ids' as [|k ids' IH]; [done|].
  unfold expiry_dict at 1. cbn [fold_left].
  rewrite expiry_dict_absorb by (apply Hsub; left).
  apply IH. intros x Hx. apply Hsub. by right.
Qed.

Lemma save_all_files saved (env : @Env World) j :
  files (save_all saved env) !! j
  = match latest_saved j saved with
    | Some v => Some v
    | None => files env !! j
    end.
Proof.
  unfold save_all. revert env.
  induction saved as [|v rest IH]; intros env; cbn [fold_left latest_saved]; [done|].
  rewrite IH. destruct (latest_saved j rest); [done|].
  unfold _save_alert; cbn.
  destruct (decide (id v = j)) as [<-|Hne].
  - by rewrite lookup_insert_eq.
  - by rewrite lookup_insert_ne.
Qed.

Lemma save_all_net saved (env : @Env World) : net (save_all saved env) = net env.
Proof.
  unfold save_all. revert env.
  induction saved as [|v rest IH]; intros env; cbn [fold_left]; [done|].
  by rewrite IH.
Qed.

Lemma save_all_twice saved (env : @Env World) :
  save_all saved (save_all saved env) = save_all saved env.
Proof.
  assert (Heq : ∀ e1 e2 : @Env World, net e1 = net e2 → files e1 = files e2 → e1 = e2)
    by (intros [] []; cbn; congruence).
  apply Heq.
  - by rewrite !save_all_net.
  - apply map_eq. intros j. rewrite !save_all_files.
    by destruct (latest_saved j saved).
Qed.

End SweepProperties.

(** ** More about the alert dict *)

Lemma dict_get_set_ne key key' a d :
  key ≠ key' → dict_get key' (dict_set key a d) = dict_get key' d.
Proof.
  intros Hne. induction d as [|[k v] d IH]; cbn.
  - by rewrite (proj2 (String.eqb_neq key key')).
  - destruct (String.eqb k key) eqn:E; cbn; [|by rewrite IH].
    apply String.eqb_eq in E as ->.
    by rewrite (proj2 (String.eqb_neq key key')).
Qed.

Lemma dict_set_length key a d :
  length (dict_set key a d)
  = match dict_get key d with
    | Some _ => length d
    | None => S (length d)
    end.
Proof.
  induction d as [|[k v] d IH]; cbn; [done|].
  destruct (String.eqb k key); cbn; [done|].
  rewrite IH. by destruct (dict_get key d).
Qed.

Lemma dict_set_set key a b d : dict_set key a (dict_set key b d) = dict_set key a d.
Proof.
  induction d as [|[k v] d IH]; cbn.
  - by rewrite String.eqb_refl.
  - destruct (String.eqb k key) eqn:E; cbn; rewrite E; by rewrite ?IH.
Qed.

Lemma dict_get_elem key a d : dict_get key d = Some a → (key, a) ∈ d.
Proof.
  induction d as [|[k v] d IH]; cbn; [done|].
  destruct (String.eqb k key) eqn:E.
  - apply String.eqb_eq in E as ->. intros [= ->]. left.
  - intros H. right. by apply IH.
Qed.

Lemma dict_alter_map f key d :
  NoDup (fst <$> d) →
  dict_alter f key d
  = (fun e => if String.eqb (fst e) key then (fst e, f (snd e)) else e) <$> d.
Proof.
  induction d as [|[k v] d IH]; cbn; [done|].
  intros [Hk Hd]%NoDup_cons. destruct (String.eqb k key) eqn:E.
  - f_equal. apply String.eqb_eq in E as ->.
    rewrite <- (list_fmap_id d) at 1. apply list_fmap_ext.
    intros i [k' v'] Hi. cbn.
    destruct (String.eqb k' key) eqn:E'; [|done].
    apply String.eqb_eq in E' as ->. exfalso. apply Hk.
    apply list_elem_of_fmap. exists (key, v'). split; [done|].
    by eapply list_elem_of_lookup_2.
  - f_equal. by apply IH.
Qed.

Lemma dict_alter_keys f key d : fst <$> dict_alter f key d = fst <$> d.
Proof.
  induction d as [|[k v] d IH]; cbn; [done|].
  destruct (String.eqb k key); cbn; by rewrite ?IH.
Qed.

Lemma nodup_keys_unique (d : list (string * Alert)) k a1 a2 :
  NoDup (fst <$> d) → (k, a1) ∈ d → (k, a2) ∈ d → a1 = a2.
Proof.
  induction d as [|[k' v] d IH]; cbn; [by intros _ ?%elem_of_nil|].
  intros [Hk Hd]%NoDup_cons H1 H2.
  apply elem_of_cons in H1 as [H1|H1]; apply elem_of_cons in H2 as [H2|H2].
  - congruence.
  - injection H1 as -> ->. exfalso. apply Hk, list_elem_of_fmap. by exists (k', a2).
  - injection H2 as -> ->. exfalso. apply Hk, list_elem_of_fmap. by exists (k', a1).
  - by apply IH.
Qed.

(** ** The transports that a retry sweep calls *)

Section RetryAttempts.

Context {World : Type}.
Variable transport transport' :
  AlertChannel -> Alert -> option string -> World -> bool * World.
Variable socket_send socket_send' : nat -> Alert -> World -> bool * World.
Hypothesis transport_agree :
  ∀ c a addr w,
    retry_count_get a (value c) < 3 → transport' c a addr w = transport c a addr w.
Hypothesis socket_agree :
  ∀ n a w,
    retry_count_get a "websocket" < 3 → socket_send' n a w = socket_send n a w.

Lemma call_transport_agree c a addr (env : @Env World) :
  retry_count_get a (value c) < 3 →
  call_transport transport' c a addr env = call_transport transport c a addr env.
Proof. intros H. unfold call_transport. by rewrite transport_agree. Qed.

Lemma send_to_sockets_agree conns a w :
  retry_count_get a "websocket" < 3 →
  send_to_sockets socket_send' conns a w = send_to_sockets socket_send conns a w.
Proof.
  intros H. revert w. induction conns as [|n rest IH]; intros w; cbn; [done|].
  rewrite socket_agree by done. destruct (socket_send n a w) as [[] w1]; [|done].
  apply IH.
Qed.

Lemma retry_via_agree mgr cc a (env : @Env World) :
  retry_count_get a (value (channel cc)) < 3 →
  retry_via transport' socket_send' mgr cc a env
  = retry_via transport socket_send mgr cc a env.
Proof.
  intros H. unfold retry_via.
  destruct (channel cc); cbn [value] in H;
    (destruct (config cc !! _) as [addr|]; [|done]).
  - unfold send_alert_email. by rewrite call_transport_agree.
  - unfold send_alert_sms. by rewrite call_transport_agree.
  - unfold send_alert_telegram. by rewrite call_transport_agree.
  - unfold send_alert_slack. by rewrite call_transport_agree.
  - unfold send_alert_websocket. destruct addr as [cid|]; [|done].
    destruct (websocket_connections mgr !! cid); [|done].
    by rewrite send_to_sockets_agree.
  - unfold send_push_notification. by rewrite call_transport_agree.
Qed.

Lemma retry_channels_agree mgr ccs a (env : @Env World) :
  retry_channels transport' socket_send' mgr ccs a env
  = retry_channels transport socket_send mgr ccs a env.
Proof.
  revert a env. induction ccs as [|cc rest IH]; intros a env;
    cbn [retry_channels]; [done|].
  destruct (needs_retry a (value (channel cc))) eqn:Hg; [|apply IH].
  rewrite retry_via_agree by (by apply needs_retry_below).
  destruct (retry_via transport socket_send mgr cc a env) as [[[ok|] a1] e1];
    [apply IH|done].
Qed.

Lemma retry_alerts_agree mgr d (env : @Env World) :
  retry_alerts transport' socket_send' mgr d env
  = retry_alerts transport socket_send mgr d env.
Proof.
  revert env. induction d as [|[k a] rest IH]; intros env;
    cbn [retry_alerts]; [done|].
  rewrite retry_channels_agree.
  destruct (retry_channels transport socket_send mgr (channels a) a env)
    as [[[] a1] e1]; [by rewrite IH|done].
Qed.

End RetryAttempts.

(** ** The claims about dispatch, retry and expiry *)

Section EngineClaims.

Context {World : Type}.
Variable transport :
  AlertChannel -> Alert -> option string -> World -> bool * World.
Variable socket_send : nat -> Alert -> World -> bool * World.

Lemma needs_retry_exhausted a name :
  3 ≤ retry_count_get a name → needs_retry a name = false.
Proof.
  intros H. unfold needs_retry. destruct (delivery_status a !! name); [|done].
  apply andb_false_intro2, Z.ltb_ge, H.
Qed.

(** C3, as amended.  The retry sweep keeps every alert in place and, for
    every channel name: a counter that is at most 3 before the sweep is at
    most 3 after it, and a channel whose counter has reached 3 fails the
    guard of the sweep, so its delivery status and counter are the same
    after the sweep, however the sweep ends.  Such a channel is not
    attempted: the sweep makes no call of a transport or of a socket for
    a channel of an alert on which that channel's counter has reached 3,
    since transports that differ in what they do on such calls alone give
    the same sweep, with the same outside world after it. *)
Theorem retry_sweep_respects_max_retries mgr (env : @Env World) :
  (∀ a name, 3 ≤ retry_count_get a name → needs_retry a name = false) ∧
  Forall2
    (fun e e1 =>
       fst e1 = fst e ∧
       ∀ name : string,
         (retry_count_get (snd e) name ≤ 3 → retry_count_get (snd e1) name ≤ 3) ∧
         (3 ≤ retry_count_get (snd e) name →
          delivery_status (snd e1) !! name = delivery_status (snd e) !! name ∧
          retry_count (snd e1) !! name = retry_count (snd e) !! name))
    (alerts mgr) (alerts (retry_failed_alerts transport socket_send mgr env).1.2) ∧
  (∀ transport' socket_send',
     (∀ c a addr w,
        retry_count_get a (value c) < 3 →
        transport' c a addr w = transport c a addr w) →
     (∀ n a w,
        retry_count_get a "websocket" < 3 →
        socket_send' n a w = socket_send n a w) →
     retry_failed_alerts transport' socket_send' mgr env
     = retry_failed_alerts transport socket_send mgr env).
Proof.
  split_and!.
  - apply needs_retry_exhausted.
  - unfold retry_failed_alerts.
    destruct (retry_alerts transport socket_send mgr (alerts mgr) env)
      as [[c2 d2] e2] eqn:Hr.
    apply retry_alerts_effect in Hr. cbn.
    eapply Forall2_impl; [exact Hr|].
    intros e e1 (Hk & Hi & He & Hc & Hs & Hn). auto.
  - intros transport' socket_send' Ht Hs. unfold retry_failed_alerts.
    by rewrite (retry_alerts_agree transport transport' socket_send socket_send').
Qed.

(** The pending-alert processor in closed form: its results, its
    environment and its alerts are those of dispatches of the alerts that
    pass its guard, in the order of the dict. *)
Lemma process_pending_closed_form mgr get now d (env : @Env World) :
  let r := process_pending transport socket_send mgr get now d env in
  let open := filter (fun e => dispatchable now (snd e)) d in
  (fun x => (res_alert_id x, res_investor_id x)) <$> r.1.1
  = (fun e => (id (snd e), investor_id (snd e))) <$> open ∧
  r.2
  = fold_left
      (fun env e =>
         (send_alert transport socket_send mgr (snd e)
            (get (investor_id (snd e)))
            ("https://yourplatform.com/opportunities/" ++ opportunity_id (snd e))
            env).2)
      open env ∧
  Forall2
    (fun e e1 => fst e1 = fst e ∧ (¬ dispatchable now (snd e) → snd e1 = snd e))
    d r.1.2.
Proof.
  cbv zeta. revert env.
  induction d as [|[k a] rest IH]; intros env; cbn [process_pending].
  - split_and!; [done|done|constructor].
  - rewrite filter_cons. cbn [snd].
    destruct (String.eqb (status a) "pending" && (now <? expires_at a)) eqn:Hg.
    + apply andb_true_iff in Hg as [Hs%String.eqb_eq Ht%Z.ltb_lt].
      rewrite decide_True by done.
      destruct (send_alert _ _ mgr a _ _ env) as [[s a2] e2] eqn:Hsend.
      specialize (IH e2).
      destruct (process_pending _ _ mgr get now rest e2) as [[rs3 d3] e3].
      cbn [fst snd] in *. destruct IH as (Hr & He & Hf).
      split_and!.
      * cbn. by rewrite Hr.
      * cbn [fold_left snd]. by rewrite Hsend.
      * constructor; [|done]. split; [done|]. intros Hn. by destruct Hn.
    + apply andb_false_iff in Hg.
      rewrite decide_False
        by (intros [Hs Ht]; destruct Hg as [Hg|Hg];
            [apply String.eqb_neq in Hg; done|apply Z.ltb_ge in Hg; lia]).
      specialize (IH env).
      destruct (process_pending _ _ mgr get now rest env) as [[rs3 d3] e3].
      cbn [fst snd] in *. destruct IH as (Hr & He & Hf).
      split_and!; [done|done|]. constructor; [|done]. done.
Qed.

(** C4, as amended.  [process_pending_alerts] dispatches the alerts that
    are [pending] and not past their expiry time, and no other: it
    returns one result for each of them, in the order of the dict; the
    outside world and the files after it are those that the dispatches
    of these alerts leave, so no channel is attempted and nothing is
    saved for any other alert; and every other alert is in the dict as
    it was.  An alert whose status is [read] or [expired] is such an
    other alert, and when every alert is one the call returns no result
    and changes nothing. *)
Theorem process_pending_alerts_skips_closed_alerts
    mgr get now (env : @Env World) :
  let r := process_pending_alerts transport socket_send mgr get now env in
  let open := filter (fun e => dispatchable now (snd e)) (alerts mgr) in
  (fun x => (res_alert_id x, res_investor_id x)) <$> r.1.1
  = (fun e => (id (snd e), investor_id (snd e))) <$> open ∧
  r.2
  = fold_left
      (fun env e =>
         (send_alert transport socket_send mgr (snd e)
            (get (investor_id (snd e)))
            ("https://yourplatform.com/opportunities/" ++ opportunity_id (snd e))
            env).2)
      open env ∧
  Forall2
    (fun e e1 => fst e1 = fst e ∧ (¬ dispatchable now (snd e) → snd e1 = snd e))
    (alerts mgr) (alerts r.1.2) ∧
  (∀ a, status a = "read" ∨ status a = "expired" → ¬ dispatchable now a) ∧
  (Forall (fun e => status (snd e) = "read" ∨ status (snd e) = "expired")
     (alerts mgr) →
   r = ([], mgr, env)).
Proof.
  cbv zeta.
  assert (Hclosed : ∀ a, status a = "read" ∨ status a = "expired" →
                         ¬ dispatchable now a).
  { intros a [H|H] [Hp _]; rewrite H in Hp; discriminate. }
  pose proof (process_pending_closed_form mgr get now (alerts mgr) env)
    as (Hr & He & Hf).
  unfold process_pending_alerts.
  destruct (process_pending transport socket_send mgr get now (alerts mgr) env)
    as [[rs d1] e1].
  cbn [fst snd alerts with_alerts] in *.
  split_and!; [done|done|done|done|].
  intros Hall.
  assert (Hnone : filter (fun e => dispatchable now (snd e)) (alerts mgr) = []).
  { clear -Hall Hclosed. induction Hall as [|e l He _ IH]; [done|].
    rewrite filter_cons, decide_False by (by apply Hclosed). exact IH. }
  rewrite Hnone in Hr, He. cbn in Hr, He.
  apply fmap_nil_inv in Hr. subst rs e1.
  assert (d1 = alerts mgr) as ->.
  { clear -Hf Hall Hclosed.
    revert d1 Hf. induction Hall as [|[k a] l He _ IH]; intros d1 Hf.
    - by inversion Hf.
    - inversion Hf as [|? [k1 a1] ? ? [Hk Ha] Hrest]; subst.
      cbn in Hk, Ha. rewrite Hk, Ha by (by apply Hclosed).
      f_equal. by apply IH. }
  by destruct mgr.
Qed.

Lemma cleanup_closed_form mgr now (env : @Env World) :
  cleanup_expired_alerts mgr now env
  = (with_alerts mgr (expiry_dict (expired_ids now (alerts mgr)) (alerts mgr)),
     save_all (expiry_saves (expired_ids now (alerts mgr)) (alerts mgr)) env).
Proof. unfold cleanup_expired_alerts. by rewrite expiry_loop. Qed.

Lemma cleanup_entries mgr now (env : @Env World) :
  Forall2
    (fun e e1 =>
       fst e1 = fst e ∧
       (snd e1 = snd e ∨ snd e1 = set_status "expired" (snd e)))
    (alerts mgr) (alerts (cleanup_expired_alerts mgr now env).1).
Proof. rewrite cleanup_closed_form. cbn. apply expiry_dict_entries. Qed.

Lemma expiry_dict_keys ids d : fst <$> expiry_dict ids d = fst <$> d.
Proof.
  unfold expiry_dict. revert d.
  induction ids as [|k ids IH]; intros d; cbn; [done|].
  by rewrite IH, dict_alter_keys.
Qed.

Lemma expiry_dict_map ids d :
  NoDup (fst <$> d) →
  expiry_dict ids d
  = (fun e => if decide (fst e ∈ ids)
              then (fst e, set_status "expired" (snd e)) else e) <$> d.
Proof.
  unfold expiry_dict. revert d.
  induction ids as [|k ids IH]; intros d Hd; cbn [fold_left].
  - rewrite <- (list_fmap_id d) at 1. apply list_fmap_ext.
    intros i e _. destruct (decide (fst e ∈ [])) as [H|]; [|done].
    by apply elem_of_nil in H.
  - rewrite IH by (by rewrite dict_alter_keys).
    rewrite dict_alter_map by done. rewrite <- list_fmap_compose.
    apply list_fmap_ext. intros i [k' v] _. cbn.
    destruct (String.eqb k' k) eqn:E; cbn.
    + apply String.eqb_eq in E as ->.
      rewrite (decide_True (P := k ∈ k :: ids)) by left.
      by destruct (decide (k ∈ ids)).
    + apply String.eqb_neq in E.
      destruct (decide (k' ∈ ids)) as [Hin|Hout].
      * by rewrite decide_True by (by right).
      * rewrite decide_False; [done|].
        intros [->|?]%elem_of_cons; done.
Qed.

Lemma cleanup_alerts_map mgr now (env : @Env World) :
  NoDup (fst <$> alerts mgr) →
  alerts (cleanup_expired_alerts mgr now env).1
  = (fun e => if decide (expires_at (snd e) < now)
              then (fst e, set_status "expired" (snd e)) else e)
    <$> alerts mgr.
Proof.
  intros Hnd. rewrite cleanup_closed_form. cbn [fst alerts with_alerts].
  rewrite expiry_dict_map by done.
  apply list_fmap_ext. intros i [k a] Hi. cbn.
  apply list_elem_of_lookup_2 in Hi.
  destruct (decide (expires_at a < now)) as [Hlt|Hge].
  - rewrite decide_True; [done|].
    unfold expired_ids. apply list_elem_of_fmap. exists (k, a). split; [done|].
    by apply list_elem_of_filter.
  - rewrite decide_False; [done|].
    unfold expired_ids.
    intros ([k' a'] & Hk & [Hp Hin]%list_elem_of_filter)%list_elem_of_fmap.
    cbn in Hk, Hp. subst k'.
    assert (a' = a) as -> by (by eapply nodup_keys_unique).
    done.
Qed.

(** C5, as amended.  No operation of the engine moves an alert back to
    [pending]: after a dispatch, after a retry sweep and after an expiry
    sweep, an alert whose status was not [pending] still has a status
    that is not [pending].  The expiry sweep changes a status to
    [expired] only, and an alert that is [expired] before it is
    unchanged by it.  With the distinct keys of a dict it changes
    exactly the alerts whose expiry time has passed: such an alert
    becomes [expired] whatever its status was, also when it was [read],
    and every other alert, so a [read] alert within its expiry time, is
    as it was. *)
Theorem status_never_back_to_pending :
  (∀ mgr a email url (env : @Env World),
     status a ≠ "pending" →
     status (send_alert transport socket_send mgr a email url env).1.2 ≠ "pending") ∧
  (∀ mgr (env : @Env World),
     Forall2
       (fun e e1 =>
          fst e1 = fst e ∧
          (status (snd e) ≠ "pending" → status (snd e1) ≠ "pending"))
       (alerts mgr)
       (alerts (retry_failed_alerts transport socket_send mgr env).1.2)) ∧
  (∀ mgr now (env : @Env World),
     Forall2
       (fun e e1 =>
          fst e1 = fst e ∧
          (status (snd e) ≠ "pending" → status (snd e1) ≠ "pending") ∧
          (status (snd e1) = status (snd e) ∨ status (snd e1) = "expired") ∧
          (status (snd e) = "expired" → snd e1 = snd e))
       (alerts mgr) (alerts (cleanup_expired_alerts mgr now env).1)) ∧
  (∀ mgr now (env : @Env World),
     NoDup (fst <$> alerts mgr) →
     Forall2
       (fun e e1 =>
          fst e1 = fst e ∧
          (expires_at (snd e) < now → snd e1 = set_status "expired" (snd e)) ∧
          (¬ expires_at (snd e) < now → snd e1 = snd e))
       (alerts mgr) (alerts (cleanup_expired_alerts mgr now env).1)).
Proof.
  split_and!.
  - intros mgr a email url env Hne.
    destruct (send_alert transport socket_send mgr a email url env)
      as [[r a1] e1] eqn:Hs.
    apply send_alert_status in Hs as (_ & _ & _ & [H|H] & _); cbn; rewrite H;
      [done|discriminate].
  - intros mgr env.
    destruct (retry_failed_alerts transport socket_send mgr env)
      as [[c m1] e1] eqn:Hr.
    unfold retry_failed_alerts in Hr.
    destruct (retry_alerts transport socket_send mgr (alerts mgr) env)
      as [[c2 d2] e2] eqn:Hr2.
    injection Hr as <- <- <-. apply retry_alerts_effect in Hr2. cbn.
    eapply Forall2_impl; [exact Hr2|].
    intros e e1 (Hk & _ & _ & _ & [H|H] & _); (split; [done|]); rewrite H;
      [done|discriminate].
  - intros mgr now env.
    eapply Forall2_impl; [apply cleanup_entries|].
    intros e e1 (Hk & Hv). split_and!; [done| | |].
    + destruct Hv as [->| ->]; [done|discriminate].
    + destruct Hv as [->| ->]; auto.
    + intros Hex. destruct Hv as [->| ->]; [done|].
      rewrite <- Hex. apply set_status_same.
  - intros mgr now env Hnd. rewrite cleanup_alerts_map by done.
    apply Forall2_fmap_r, Forall_Forall2_diag, Forall_forall.
    intros [k a] _. unfold compose. cbn [fst snd].
    destruct (decide (expires_at a < now)); cbn [fst snd];
      (split_and!; [done|..]; intros; first [done|lia]).

Qed.

(** C7.  For a fixed current time, a second run of
    [cleanup_expired_alerts] changes nothing: the manager and the alert
    files after two runs are those after one.  An alert that is already
    [expired] is left as it is by a run. *)
Theorem cleanup_expired_alerts_idempotent mgr now (env : @Env World) :
  let once := cleanup_expired_alerts mgr now env in
  cleanup_expired_alerts once.1 now once.2 = once ∧
  Forall2
    (fun e e1 => fst e1 = fst e ∧ (status (snd e) = "expired" → snd e1 = snd e))
    (alerts mgr) (alerts once.1).
Proof.
  cbv zeta. split.
  - rewrite !cleanup_closed_form. cbn [fst snd alerts with_alerts].
    set (ids := expired_ids now (alerts mgr)).
    assert (expired_ids now (expiry_dict ids (alerts mgr)) = ids) as ->
      by apply expired_ids_entries, expiry_dict_entries.
    rewrite expiry_dict_twice by done.
    by rewrite expiry_saves_dict, save_all_twice.
  - eapply Forall2_impl; [apply cleanup_entries|].
    intros e e1 (Hk & Hv). split; [done|].
    intros Hex. destruct Hv as [->| ->]; [done|].
    rewrite <- Hex. apply set_status_same.
Qed.

End EngineClaims.

(** ** The claims about alert creation *)



Section CreationClaims.

Context {World AdditionalData : Type}.
Variable describe : Opportunity -> float -> option AdditionalData -> string.
Variable entitle : Opportunity -> string.
Variable format_alert_id : nat -> Z -> string.

Local Abbreviation create_alert' :=
  (create_alert (World := World) describe entitle format_alert_id).

Lemma build_channels_spec prefs investor c :
  (∃ cc, cc ∈ build_channels prefs investor ∧ channel cc = c)
  ↔ value c ∈ default (default_selection c) (pref_channels prefs).
Proof.
  unfold build_channels, selects.
  split.
  - intros (cc & Hin & <-).
    repeat (apply elem_of_app in Hin as [Hin|Hin]);
      case_bool_decide; try (by apply elem_of_nil in Hin);
      apply list_elem_of_singleton in Hin as ->; done.
  - intros Hsel. destruct c; cbn in Hsel.
    + exists (mkChannelConfig EMAIL true {["email" := pref_email prefs]}).
      split; [|done]. rewrite bool_decide_true by done. set_solver.
    + exists (mkChannelConfig SMS true {["phone" := pref_phone prefs]}).
      split; [|done]. rewrite (bool_decide_true (_ ∈ default [] _)) by done.
      set_solver.
    + exists (mkChannelConfig TELEGRAM true
                {["chat_id" := pref_telegram_chat_id prefs]}).
      split; [|done]. rewrite (bool_decide_true ("telegram" ∈ _)) by done.
      set_solver.
    + exists (mkChannelConfig SLACK true {["channel" := pref_slack_channel prefs]}).
      split; [|done]. rewrite (bool_decide_true ("slack" ∈ _)) by done.
      set_solver.
    + exists (mkChannelConfig WEBSOCKET true {["connection_id" := Some investor]}).
      split; [|done]. rewrite (bool_decide_true ("websocket" ∈ _)) by done.
      set_solver.
    + exists (mkChannelConfig PUSH true
                {["device_token" := pref_device_token prefs]}).
      split; [|done]. rewrite (bool_decide_true ("push" ∈ _)) by done.
      set_solver.
Qed.

Lemma build_channels_enabled prefs investor :
  Forall (fun cc => enabled cc = true) (build_channels prefs investor).
Proof.
  unfold build_channels.
  repeat (apply Forall_app; split); case_match; by repeat constructor.
Qed.


(** C10, as amended.  When the preferences used for the investor have no
    [channels] key, which includes the investor with no stored
    preferences, the new alert has exactly one channel: the enabled
    e-mail channel whose address map is [{"email": preferences.get("email")}].
    That address is [None] when the investor has no stored preferences. *)
Theorem create_alert_default_channel
    mgr investor opportunity score hours extra t1 t2 t3 (env : @Env World) :
  let prefs := default no_preferences (alert_preferences mgr !! investor) in
  let r := create_alert' mgr investor opportunity score hours extra t1 t2 t3 env in
  pref_channels prefs = None →
  channels r.1.1 = [mkChannelConfig EMAIL true {["email" := pref_email prefs]}] ∧
  (alert_preferences mgr !! investor = None →
   channels r.1.1 = [mkChannelConfig EMAIL true {["email" := None]}]).
Proof.
  cbv zeta. intros Hnone. unfold create_alert. cbn [fst snd channels].
  assert (∀ prefs, pref_channels prefs = None →
            build_channels prefs investor
            = [mkChannelConfig EMAIL true {["email" := pref_email prefs]}]) as Hb.
  { intros prefs Hp. unfold build_channels, selects. rewrite Hp. reflexivity. }
  split; [by apply Hb|].
  intros Hno. rewrite Hno. reflexivity.
Qed.

End CreationClaims.

(** ** The code run on the sample inputs *)

(** C1: the code at the failing input.  A pending alert whose only
    channel is the text-message channel is dispatched and the message is
    delivered: the result map and the delivery status say so, and the
    status of the alert is still [pending], where the claim has [sent]. *)
Theorem send_alert_delivered_sms_stays_pending :
  let r := send_alert delivering socket_ok no_alerts
             (sample_alert "pending" [sms_channel]) investor_mail sample_url
             blank_env in
  r.1.1 !! "sms" = Some true ∧
  delivery_status r.1.2 !! "sms" = Some "delivered" ∧
  status r.1.2 = "pending".
Proof. vm_compute. done. Qed.

(** C2: the code at the failing input.  The text-message channel of the
    alert has no [phone] key, so the subscript raises inside the [try]
    block.  The handler records [error] and [False] and the loop goes on
    to the e-mail channel, which delivers; the retry counter of the
    text-message channel is not written, where the claim has it
    incremented. *)
Theorem send_alert_exception_not_counted :
  let r := send_alert delivering socket_ok no_alerts
             (sample_alert "pending" [sms_channel_without_phone; email_channel])
             investor_mail sample_url blank_env in
  r.1.1 !! "sms" = Some false ∧
  delivery_status r.1.2 !! "sms" = Some "error" ∧
  retry_count r.1.2 !! "sms" = None ∧
  delivery_status r.1.2 !! "email" = Some "delivered".
Proof. vm_compute. done. Qed.

(** C3, the claim as stated fails: four dispatches of an alert whose
    text-message transport fails leave its retry counter at 4. *)
Lemma dispatch_exceeds_max_retries :
  ¬ (retry_count_get
       (dispatch_times failing socket_ok no_alerts 4
          (sample_alert "pending" [sms_channel]) blank_env).1 "sms" ≤ 3).
Proof.
  assert (retry_count_get
            (dispatch_times failing socket_ok no_alerts 4
               (sample_alert "pending" [sms_channel]) blank_env).1 "sms" = 4) as ->
    by (vm_compute; reflexivity).
  lia.
Qed.

Lemma retry_sweep_respects_max_retries_witness :
  let r := retry_failed_alerts counting socket_counting exhausted_store
             (mkEnv 0%nat ∅) in
  3 ≤ retry_count_get exhausted_alert "sms" ∧
  net r.2 = 1%nat ∧
  Forall2
    (fun e e1 =>
       fst e1 = fst e ∧
       ∀ name : string,
         (retry_count_get (snd e) name ≤ 3 → retry_count_get (snd e1) name ≤ 3) ∧
         (3 ≤ retry_count_get (snd e) name →
          delivery_status (snd e1) !! name = delivery_status (snd e) !! name ∧
          retry_count (snd e1) !! name = retry_count (snd e) !! name))
    (alerts exhausted_store) (alerts r.1.2) ∧
  retry_failed_alerts counting_below_bound socket_counting exhausted_store
    (mkEnv 0%nat ∅) = r.
Proof.
  pose proof (retry_sweep_respects_max_retries counting socket_counting
                exhausted_store (mkEnv 0%nat ∅)) as (_ & Hkeep & Hcalls).
  split_and!.
  - vm_compute. discriminate.
  - reflexivity.
  - exact Hkeep.
  - apply Hcalls; [|done].
    intros c a addr w Hlt. unfold counting_below_bound.
    apply Z.ltb_lt in Hlt. by rewrite Hlt.
Defined.

(** C4, the claim as stated fails: a dispatch of an expired alert sends
    the e-mail, reports it in the result map, records the delivery and
    sets the status to [sent]. *)
Lemma send_alert_on_expired_alert_sends :
  let a := sample_alert "expired" [email_channel] in
  let r := send_alert delivering socket_ok no_alerts a investor_mail sample_url
             blank_env in
  status a = "expired" ∧ delivery_status a !! "email" = None ∧
  r.1.1 !! "email" = Some true ∧
  delivery_status r.1.2 !! "email" = Some "delivered" ∧
  status r.1.2 = "sent".
Proof. vm_compute. done. Qed.

Lemma process_pending_alerts_skips_closed_alerts_witness :
  let r := process_pending_alerts delivering socket_ok mixed_store
             (fun _ => investor_mail) 100 blank_env in
  (fun x => (res_alert_id x, res_investor_id x)) <$> r.1.1
  = [("alert_4_20240101000000", "inv_2")] ∧
  Forall2
    (fun e e1 => fst e1 = fst e ∧ (¬ dispatchable 100 (snd e) → snd e1 = snd e))
    (alerts mixed_store) (alerts r.1.2).
Proof.
  pose proof (process_pending_alerts_skips_closed_alerts delivering socket_ok
                mixed_store (fun _ => investor_mail) 100 blank_env)
    as (Hr & _ & Hf & _).
  split; [|exact Hf].
  cbv zeta in Hr. rewrite Hr. reflexivity.
Defined.

(** C5, the claim as stated fails: the expiry sweep, run after the expiry
    time of an alert that is [read], sets its status to [expired]. *)
Lemma cleanup_expires_read_alert :
  status <$> dict_get "alert_1_20240101000000" (alerts read_store) = Some "read" ∧
  status <$> dict_get "alert_1_20240101000000"
               (alerts (cleanup_expired_alerts read_store 200000 blank_env).1)
  = Some "expired".
Proof. vm_compute. done. Qed.


(** C10, the claim as stated fails: the stored preferences have no
    [channels] key and store an e-mail address; the address map of the
    default e-mail channel holds that address, not [None]. *)
Lemma create_alert_default_email_keeps_stored_address :
  let r := create_for {["inv_1" := email_address_only]} in
  channels r.1.1
  = [mkChannelConfig EMAIL true {["email" := Some "investor@example.com"]}] ∧
  config <$> head (channels r.1.1) ≠ Some {["email" := None]}.
Proof.
  vm_compute. split; [done|].
  intros H. discriminate H.
Qed.

Lemma create_alert_default_channel_witness :
  let r := create_for ∅ in
  channels r.1.1 = [mkChannelConfig EMAIL true {["email" := None]}] ∧
  ((∅ : gmap string Preferences) !! "inv_1" = None →
   channels r.1.1 = [mkChannelConfig EMAIL true {["email" := None]}]).
Proof.
  exact (create_alert_default_channel (World := unit) plain_text plain_title
           plain_id (mkManager [] ∅ ∅) "inv_1" sample_opportunity 0.95%float 48
           None 0 0 0 blank_env eq_refl).
Defined.

(** ** The claim about the priority *)

Lemma priority_constants_finite :
  finite_or_zero (Prim2SF 0.2) ∧ finite_or_zero (Prim2SF 0.1).
Proof. vm_compute. done. Qed.

Lemma priority_score_mono x y opportunity :
  (x <=? y)%float = true →
  (priority_score x opportunity <=? priority_score y opportunity)%float = true.
Proof.
  intros Hle. destruct priority_constants_finite as [H2 H1].
  unfold priority_score. cbv zeta.
  destruct (default false (urgent opportunity)),
           (10000000 <=? investment_amount opportunity)%float,
           (default false (competitive_situation opportunity));
    repeat (apply add_mono; [assumption|]); exact Hle.
Qed.

Lemma priority_bucket_mono s1 s2 :
  (s1 <=? s2)%float = true →
  (priority_rank (priority_bucket s1) ≤ priority_rank (priority_bucket s2))%nat.
Proof.
  intros Hle.
  assert (Hup : ∀ t, (t <=? s1)%float = true → (t <=? s2)%float = true)
    by (intros t Ht; exact (leb_trans t s1 s2 Ht Hle)).
  pose proof (Hup 0.9%float) as H9. pose proof (Hup 0.7%float) as H7.
  pose proof (Hup 0.5%float) as H5.
  unfold priority_bucket.
  destruct (0.9 <=? s1)%float; [rewrite H9 by done; reflexivity|].
  destruct (0.7 <=? s1)%float;
    [rewrite H7 by done; destruct (0.9 <=? s2)%float; cbn; lia|].
  destruct (0.5 <=? s1)%float;
    [rewrite H5 by done;
     destruct (0.9 <=? s2)%float, (0.7 <=? s2)%float; cbn; lia|].
  cbn. lia.
Qed.

(** C6.  [_calculate_priority] is a function of its two arguments, and it
    is the computation the specification describes: the match score, plus
    0.2 when the opportunity is flagged urgent, plus 0.1 when its
    investment amount is at least 10,000,000, plus 0.1 when it is
    competitively contested, mapped to [urgent] from 0.9, [high] from 0.7,
    [medium] from 0.5, and [low] below, each bound included.  A match
    score of 0.95 with the urgent flag and an amount of 15,000,000 gives
    [urgent].  With the opportunity fixed, a greater or equal match score
    gives a greater or equal priority.  All arithmetic is binary64. *)
Theorem calculate_priority_buckets_and_monotone :
  (∀ score opportunity,
     _calculate_priority score opportunity
     = priority_bucket (priority_score score opportunity)) ∧
  (∀ s, priority_bucket s = "urgent" ↔ (0.9 <=? s)%float = true) ∧
  (∀ s, priority_bucket s = "high"
        ↔ (0.9 <=? s)%float = false ∧ (0.7 <=? s)%float = true) ∧
  (∀ s, priority_bucket s = "medium"
        ↔ (0.7 <=? s)%float = false ∧ (0.5 <=? s)%float = true) ∧
  (priority_bucket 0.9 = "urgent" ∧ priority_bucket 0.7 = "high" ∧
   priority_bucket 0.5 = "medium") ∧
  (∀ opportunity,
     urgent opportunity = Some true →
     investment_amount opportunity = 15000000%float →
     _calculate_priority 0.95 opportunity = "urgent") ∧
  (∀ x y opportunity,
     (x <=? y)%float = true →
     (priority_rank (_calculate_priority x opportunity)
      ≤ priority_rank (_calculate_priority y opportunity))%nat).
Proof.
  split_and!.
  - reflexivity.
  - intros s. unfold priority_bucket.
    destruct (0.9 <=? s)%float, (0.7 <=? s)%float, (0.5 <=? s)%float;
      split; intros; done.
  - intros s. unfold priority_bucket.
    destruct (0.9 <=? s)%float eqn:E9, (0.7 <=? s)%float eqn:E7,
             (0.5 <=? s)%float;
      split; try (intros [? ?]); intros; done.
  - intros s. unfold priority_bucket.
    destruct (0.9 <=? s)%float eqn:E9, (0.7 <=? s)%float eqn:E7,
             (0.5 <=? s)%float;
      split; try (intros [? ?]); intros; try done.
    pose proof (leb_trans 0.7 0.9 s eq_refl E9). congruence.
  - reflexivity.
  - reflexivity.
  - reflexivity.
  - intros [i n sec amount loc deal urg comp]. cbn. intros -> ->.
    destruct comp as [[]|]; vm_compute; reflexivity.
  - intros x y opportunity Hle.
    change (priority_rank (priority_bucket (priority_score x opportunity))
            ≤ priority_rank (priority_bucket (priority_score y opportunity)))%nat.
    by apply priority_bucket_mono, priority_score_mono.
Qed.

Lemma calculate_priority_buckets_and_monotone_witness :
  (0.55 <=? 0.95)%float = true ∧
  (priority_rank (_calculate_priority 0.55 sample_opportunity)
   ≤ priority_rank (_calculate_priority 0.95 sample_opportunity))%nat.
Proof.
  split; [reflexivity|].
  apply calculate_priority_buckets_and_monotone. reflexivity.
Defined.

(** ** More about the dispatcher *)

(** The channel names are distinct. *)
Lemma value_inj c1 c2 : value c1 = value c2 → c1 = c2.
Proof. destruct c1, c2; cbn; intros H; try reflexivity; discriminate H. Qed.

Section DispatchExtras.

Context {World : Type}.
Variable transport :
  AlertChannel -> Alert -> option string -> World -> bool * World.
Variable socket_send : nat -> Alert -> World -> bool * World.

Local Abbreviation send_via' := (send_via transport socket_send).
Local Abbreviation send_alert_step' := (send_alert_step transport socket_send).
Local Abbreviation send_alert_loop' := (send_alert_loop transport socket_send).
Local Abbreviation send_alert' := (send_alert transport socket_send).

Lemma call_transport_files c a addr (env : @Env World) ok env1 :
  call_transport transport c a addr env = (ok, env1) → files env1 = files env.
Proof.
  unfold call_transport. destruct (transport c a addr (net env)).
  by intros [= <- <-].
Qed.

Lemma send_alert_websocket_files mgr a cid (env : @Env World) ok env1 :
  send_alert_websocket socket_send mgr a cid env = (ok, env1) →
  files env1 = files env.
Proof.
  unfold send_alert_websocket.
  destruct cid as [cid|]; [|by intros [= <- <-]].
  destruct (websocket_connections mgr !! cid); [|by intros [= <- <-]].
  destruct (send_to_sockets socket_send l a (net env)). by intros [= <- <-].
Qed.

(** What a sender call does besides [sender_effect]: the files other than
    the alert's own are untouched; only a delivered e-mail touches the
    alert, setting [sent] and counting the attempt. *)
Lemma send_via_detail mgr cc a email url (env : @Env World) o a1 env1 :
  send_via' mgr cc a email url env = (o, a1, env1) →
  (∀ j, j ≠ id a → files env1 !! j = files env !! j) ∧
  (channel cc = EMAIL → o ≠ Raised) ∧
  (channel cc = EMAIL ∧ o = Returned true ∧ status a1 = "sent" ∧
   notification_attempts a1 = notification_attempts a + 1
   ∨ (channel cc ≠ EMAIL ∨ o ≠ Returned true) ∧ a1 = a).
Proof.
  unfold send_via. intros H.
  destruct (channel cc) eqn:Hc.
  - unfold send_alert_email in H.
    destruct (call_transport transport EMAIL a email env) as [ok e2] eqn:Ht.
    apply call_transport_files in Ht.
    destruct ok; injection H as <- <- <-; (split_and!; [|done|]).
    + intros j Hj. unfold _save_alert. cbn. rewrite lookup_insert_ne by done.
      by rewrite Ht.
    + left. done.
    + intros j _. by rewrite Ht.
    + right. split; [right; done|done].
  - destruct (config cc !! "phone"); [|injection H as <- <- <-].
    + destruct (send_alert_sms transport a o0 env) as [ok e2] eqn:Ht.
      apply call_transport_files in Ht. injection H as <- <- <-.
      split_and!; [by rewrite Ht|done|right; split; [left|]; done].
    + split_and!; [done|done|right; split; [left|]; done].
  - destruct (config cc !! "chat_id"); [|injection H as <- <- <-].
    + destruct (send_alert_telegram transport a o0 env) as [ok e2] eqn:Ht.
      apply call_transport_files in Ht. injection H as <- <- <-.
      split_and!; [by rewrite Ht|done|right; split; [left|]; done].
    + split_and!; [done|done|right; split; [left|]; done].
  - destruct (config cc !! "channel"); [|injection H as <- <- <-].
    + destruct (send_alert_slack transport a o0 env) as [ok e2] eqn:Ht.
      apply call_transport_files in Ht. injection H as <- <- <-.
      split_and!; [by rewrite Ht|done|right; split; [left|]; done].
    + split_and!; [done|done|right; split; [left|]; done].
  - destruct (config cc !! "connection_id"); [|injection H as <- <- <-].
    + destruct (send_alert_websocket socket_send mgr a o0 env) as [ok e2] eqn:Ht.
      apply send_alert_websocket_files in Ht. injection H as <- <- <-.
      split_and!; [by rewrite Ht|done|right; split; [left|]; done].
    + split_and!; [done|done|right; split; [left|]; done].
  - destruct (config cc !! "device_token"); [|injection H as <- <- <-].
    + destruct (send_push_notification transport a o0 env) as [ok e2] eqn:Ht.
      apply call_transport_files in Ht. injection H as <- <- <-.
      split_and!; [by rewrite Ht|done|right; split; [left|]; done].
    + split_and!; [done|done|right; split; [left|]; done].
Qed.

(** One iteration of the loop, in full. *)
Lemma send_alert_step_writes mgr cc email url r a (env : @Env World) r1 a1 env1 :
  send_alert_step' mgr cc email url (r, a, env) = (r1, a1, env1) →
  let name := value (channel cc) in
  id a1 = id a ∧
  (∃ b, r1 = <[name := b]> r ∧ agrees b (delivery_status a1 !! name) ∧
        (b = true ∧ channel cc = EMAIL →
         status a1 = "sent" ∧
         notification_attempts a1 = notification_attempts a + 1) ∧
        (b = false ∨ channel cc ≠ EMAIL →
         status a1 = status a ∧
         notification_attempts a1 = notification_attempts a)) ∧
  (∀ n, n ≠ name →
        delivery_status a1 !! n = delivery_status a !! n ∧
        retry_count a1 !! n = retry_count a !! n) ∧
  (∀ j, j ≠ id a → files env1 !! j = files env !! j).
Proof.
  cbv zeta. unfold send_alert_step.
  destruct (send_via' mgr cc a email url env) as [[o a2] e2] eqn:Hv.
  pose proof (send_via_effect _ _ _ _ _ _ _ _ _ _ _ Hv)
    as ((Hi & _ & _ & Hd & Hr & _) & _ & _).
  pose proof (send_via_detail _ _ _ _ _ _ _ _ _ Hv) as (Hf & Hem & Hdet).
  destruct Hdet as [(He & -> & Hs & Hn)|[Hor Heq]].
  - intros [= <- <- <-]. cbn.
    split_and!;
      [done| |intros n Hne; rewrite ?lookup_insert_ne by done; by rewrite Hd, Hr
      |done].
    exists true. split_and!; [done|cbn; by rewrite lookup_insert_eq|done|].
    intros [?|?]; done.
  - destruct o as [[]|]; intros [= <- <- <-]; cbn;
      (split_and!;
         [done| |intros n Hne; rewrite ?lookup_insert_ne by done; by rewrite Hd, Hr
         |done]).
    + exists true. split_and!; [done|cbn; by rewrite lookup_insert_eq| |by rewrite Heq].
      intros [_ ?]. destruct Hor; done.
    + exists false.
      split_and!; [done|cbn; left; by rewrite lookup_insert_eq| |by rewrite Heq].
      intros [? _]; done.
    + exists false.
      split_and!; [done|cbn; right; by rewrite lookup_insert_eq| |by rewrite Heq].
      intros [? _]; done.
Qed.

Lemma attempts_cons cc ccs n :
  attempts (cc :: ccs) n
  ↔ (enabled cc = true ∧ value (channel cc) = n) ∨ attempts ccs n.
Proof.
  unfold attempts. split.
  - intros (c & Hin & He & Hv). apply elem_of_cons in Hin as [->|Hin]; eauto.
  - intros [[He Hv]|(c & Hin & He & Hv)].
    + exists cc. split; [left|done].
    + exists c. split; [by right|done].
Qed.

Lemma send_alert_loop_keys mgr ccs email url r a (env : @Env World) r1 a1 env1 :
  send_alert_loop' mgr ccs email url (r, a, env) = (r1, a1, env1) →
  (∀ n, is_Some (r1 !! n) ↔ is_Some (r !! n) ∨ attempts ccs n) ∧
  (∀ n, ¬ attempts ccs n →
        delivery_status a1 !! n = delivery_status a !! n ∧
        retry_count a1 !! n = retry_count a !! n).
Proof.
  revert r a env.
  induction ccs as [|cc rest IH]; intros r a env; cbn [send_alert_loop].
  - intros [= <- <- <-]. split; [|done].
    intros n. split; [auto|]. intros [?|(c & Hin & _)]; [done|].
    by apply elem_of_nil in Hin.
  - destruct (enabled cc) eqn:Hen.
    + destruct (send_alert_step' mgr cc email url (r, a, env))
        as [[r2 a2] e2] eqn:Hstep.
      apply send_alert_step_writes in Hstep
        as (_ & (b & -> & _) & Hoth & _).
      intros [Hk Hf]%IH. split.
      * intros n. rewrite Hk, attempts_cons.
        destruct (decide (value (channel cc) = n)) as [<-|Hne].
        -- rewrite lookup_insert_eq. split; [intros _|intros _; left; eauto].
           right. left. done.
        -- rewrite lookup_insert_ne by done. split; [tauto|].
           intros [?|[[_ ?]|?]]; tauto.
      * intros n Hn. rewrite attempts_cons in Hn.
        destruct (Hf n) as [-> ->]; [tauto|]. apply Hoth. intros ->. tauto.
    + intros [Hk Hf]%IH. split.
      * intros n. rewrite Hk, attempts_cons, Hen. split; [tauto|].
        intros [?|[[? _]|?]]; [tauto|done|tauto].
      * intros n Hn. apply Hf. rewrite attempts_cons in Hn. tauto.
Qed.

Lemma send_alert_loop_agrees mgr ccs email url r a (env : @Env World) r1 a1 env1 :
  send_alert_loop' mgr ccs email url (r, a, env) = (r1, a1, env1) →
  (∀ n b, r !! n = Some b → agrees b (delivery_status a !! n)) →
  ∀ n b, r1 !! n = Some b → agrees b (delivery_status a1 !! n).
Proof.
  revert r a env.
  induction ccs as [|cc rest IH]; intros r a env; cbn [send_alert_loop].
  - by intros [= <- <- <-].
  - destruct (enabled cc); [|apply IH].
    destruct (send_alert_step' mgr cc email url (r, a, env))
      as [[r2 a2] e2] eqn:Hstep.
    apply send_alert_step_writes in Hstep
      as (_ & (b & -> & Hag & _) & Hoth & _).
    intros Hl Hinv. eapply IH; [exact Hl|].
    intros n b'. destruct (decide (value (channel cc) = n)) as [<-|Hne].
    + rewrite lookup_insert_eq. by intros [= <-].
    + rewrite lookup_insert_ne by done. intros Hb.
      destruct (Hoth n) as [-> _]; [done|]. by apply Hinv.
Qed.

Lemma send_alert_loop_files mgr ccs email url r a (env : @Env World) r1 a1 env1 :
  send_alert_loop' mgr ccs email url (r, a, env) = (r1, a1, env1) →
  id a1 = id a ∧ ∀ j, j ≠ id a → files env1 !! j = files env !! j.
Proof.
  revert r a env.
  induction ccs as [|cc rest IH]; intros r a env; cbn [send_alert_loop].
  - by intros [= <- <- <-].
  - destruct (enabled cc); [|apply IH].
    destruct (send_alert_step' mgr cc email url (r, a, env))
      as [[r2 a2] e2] eqn:Hstep.
    apply send_alert_step_writes in Hstep as (Hi & _ & _ & Hf).
    intros [Hi2 Hf2]%IH. split; [congruence|].
    intros j Hj. rewrite Hf2 by congruence. by apply Hf.
Qed.

(** The e-mail bookkeeping along the loop: the attempt counter never
    decreases; it moves only on an enabled e-mail channel; and while the
    result map says that the e-mail was delivered, the alert is [sent]
    and the counter is above its value [base] at the start. *)
Lemma send_alert_loop_email mgr ccs email url r a (env : @Env World) r1 a1 env1 base :
  send_alert_loop' mgr ccs email url (r, a, env) = (r1, a1, env1) →
  notification_attempts a ≤ notification_attempts a1 ∧
  (¬ attempts ccs "email" →
   notification_attempts a1 = notification_attempts a ∧ status a1 = status a) ∧
  (base ≤ notification_attempts a →
   (r !! "email" = Some true →
    status a = "sent" ∧ base < notification_attempts a) →
   r1 !! "email" = Some true →
   status a1 = "sent" ∧ base < notification_attempts a1).
Proof.
  revert r a env.
  induction ccs as [|cc rest IH]; intros r a env; cbn [send_alert_loop].
  - intros [= <- <- <-]. split_and!; [lia|done|auto].
  - destruct (enabled cc) eqn:Hen.
    + destruct (send_alert_step' mgr cc email url (r, a, env))
        as [[r2 a2] e2] eqn:Hstep.
      apply send_alert_step_writes in Hstep
        as (_ & (b & -> & _ & Hyes & Hno) & _ & _).
      intros (Hmono & Hsame & Hinv)%IH.
      assert (Hle : notification_attempts a ≤ notification_attempts a2).
      { destruct b, (decide (channel cc = EMAIL)) as [He|He].
        - destruct Hyes as [_ ->]; [done|lia].
        - destruct Hno as [_ ->]; [by right|lia].
        - destruct Hno as [_ ->]; [by left|lia].
        - destruct Hno as [_ ->]; [by left|lia]. }
      split_and!; [lia| |].
      * intros Hn. rewrite attempts_cons in Hn.
        assert (channel cc ≠ EMAIL) as He by (intros He; rewrite He in Hn; tauto).
        destruct Hno as [Hs Hna]; [by right|].
        destruct Hsame as [-> ->]; [tauto|]. done.
      * intros Hbase Hstart. apply Hinv; [lia|].
        destruct (decide (channel cc = EMAIL)) as [He|He].
        -- rewrite He. cbn [value]. rewrite lookup_insert_eq. intros [= ->].
           destruct Hyes as [-> ->]; [done|]. split; [done|lia].
        -- rewrite lookup_insert_ne
             by (intros Hv; apply He, value_inj; exact Hv).
           destruct Hno as [-> ->]; [by right|]. exact Hstart.
    + intros (Hmono & Hsame & Hinv)%IH. split_and!; [done| |done].
      intros Hn. apply Hsame. rewrite attempts_cons in Hn. tauto.
Qed.

(** X1.  The result map of [send_alert] has exactly the names of the
    enabled channels of the alert as its keys, and a channel name that no
    enabled channel has keeps its delivery status and its retry count. *)
Theorem send_alert_attempts_enabled_channels mgr a email url (env : @Env World) :
  let r := send_alert' mgr a email url env in
  ∀ name,
    (is_Some (r.1.1 !! name) ↔ attempts (channels a) name) ∧
    (¬ attempts (channels a) name →
     delivery_status r.1.2 !! name = delivery_status a !! name ∧
     retry_count r.1.2 !! name = retry_count a !! name).
Proof.
  cbv zeta. intros name. unfold send_alert.
  destruct (send_alert_loop' mgr (channels a) email url (∅, a, env))
    as [[r1 a1] e1] eqn:Hl.
  apply send_alert_loop_keys in Hl as [Hk Hf]. cbn. split; [|apply Hf].
  rewrite Hk, lookup_empty. split; [|auto].
  intros [H|?]; [by apply is_Some_None in H|done].
Qed.

(** X2.  The result map and the delivery status agree after a dispatch:
    a channel reported [True] is recorded as [delivered], and a channel
    reported [False] is recorded as [failed] or as [error]. *)
Theorem send_alert_results_agree mgr a email url (env : @Env World) :
  let r := send_alert' mgr a email url env in
  ∀ name (b : bool),
    r.1.1 !! name = Some b → agrees b (delivery_status r.1.2 !! name).
Proof.
  cbv zeta. intros name b. unfold send_alert.
  destruct (send_alert_loop' mgr (channels a) email url (∅, a, env))
    as [[r1 a1] e1] eqn:Hl.
  cbn. eapply (send_alert_loop_agrees _ _ _ _ _ _ _ _ _ _ Hl).
  intros n b'. by rewrite lookup_empty.
Qed.

(** X3.  [send_alert] leaves the final state of the alert in the alert's
    file, and touches no other file. *)
Theorem send_alert_saves_final_state mgr a email url (env : @Env World) :
  let r := send_alert' mgr a email url env in
  id r.1.2 = id a ∧
  files r.2 !! id a = Some r.1.2 ∧
  ∀ j, j ≠ id a → files r.2 !! j = files env !! j.
Proof.
  cbv zeta. unfold send_alert.
  destruct (send_alert_loop' mgr (channels a) email url (∅, a, env))
    as [[r1 a1] e1] eqn:Hl.
  apply send_alert_loop_files in Hl as [Hi Hf]. cbn. split_and!; [done| |].
  - rewrite <- Hi. apply lookup_insert_eq.
  - intros j Hj. rewrite lookup_insert_ne by congruence. by apply Hf.
Qed.

(** X4.  Only e-mail counts as a notification attempt.  A dispatch whose
    result map reports the e-mail delivered leaves the alert [sent] with a
    greater [notification_attempts]; a dispatch of an alert with no
    enabled e-mail channel changes neither the status nor
    [notification_attempts], whatever the other channels deliver; and
    [notification_attempts] never decreases. *)
Theorem send_alert_counts_email_only mgr a email url (env : @Env World) :
  let r := send_alert' mgr a email url env in
  notification_attempts a ≤ notification_attempts r.1.2 ∧
  (r.1.1 !! "email" = Some true →
   status r.1.2 = "sent" ∧
   notification_attempts a < notification_attempts r.1.2) ∧
  (¬ attempts (channels a) "email" →
   status r.1.2 = status a ∧
   notification_attempts r.1.2 = notification_attempts a).
Proof.
  cbv zeta. unfold send_alert.
  destruct (send_alert_loop' mgr (channels a) email url (∅, a, env))
    as [[r1 a1] e1] eqn:Hl.
  apply (send_alert_loop_email _ _ _ _ _ _ _ _ _ _ (notification_attempts a)) in Hl
    as (Hmono & Hsame & Hinv).
  cbn. split_and!; [done| |].
  - apply Hinv; [lia|]. by rewrite lookup_empty.
  - intros Hn. destruct (Hsame Hn). done.
Qed.

End DispatchExtras.

(** ** More about the retry sweep *)

Section RetryExtras.

Context {World : Type}.
Variable transport :
  AlertChannel -> Alert -> option string -> World -> bool * World.
Variable socket_send : nat -> Alert -> World -> bool * World.

Local Abbreviation send_via' := (send_via transport socket_send).
Local Abbreviation send_alert' := (send_alert transport socket_send).
Local Abbreviation retry_via' := (retry_via transport socket_send).
Local Abbreviation retry_channels' := (retry_channels transport socket_send).
Local Abbreviation retry_alerts' := (retry_alerts transport socket_send).
Local Abbreviation retry_failed_alerts' :=
  (retry_failed_alerts transport socket_send).

Lemma retry_channels_idle mgr ccs a (env : @Env World) :
  Forall (fun cc => needs_retry a (value (channel cc)) = false) ccs →
  retry_channels' mgr ccs a env = (Completed, a, env).
Proof.
  induction 1 as [|cc rest Hcc _ IH]; cbn [retry_channels]; [done|].
  by rewrite Hcc.
Qed.

Lemma retry_alerts_idle mgr d (env : @Env World) :
  Forall
    (fun e => ∀ cc, cc ∈ channels (snd e) →
                    needs_retry (snd e) (value (channel cc)) = false) d →
  retry_alerts' mgr d env = (Completed, d, env).
Proof.
  induction 1 as [|[k a] rest Ha _ IH]; cbn [retry_alerts]; [done|].
  rewrite retry_channels_idle by (apply Forall_forall; exact Ha).
  by rewrite IH.
Qed.

(** X5.  A retry sweep over alerts none of whose channels passes the
    guard (a delivery status of [failed] or [error] with fewer than 3
    retries) is a no-op: it sends nothing, saves nothing and returns with
    the manager as it was.  An alert that was never dispatched is such an
    alert. *)
Theorem retry_sweep_without_candidates_is_noop mgr (env : @Env World) :
  Forall
    (fun e => ∀ cc, cc ∈ channels (snd e) →
                    needs_retry (snd e) (value (channel cc)) = false)
    (alerts mgr) →
  retry_failed_alerts' mgr env = (Completed, mgr, env).
Proof.
  intros H. unfold retry_failed_alerts. rewrite retry_alerts_idle by done.
  by destruct mgr.
Qed.

Lemma needs_retry_failed a name :
  needs_retry a name = true →
  delivery_status a !! name = Some "failed" ∨
  delivery_status a !! name = Some "error".
Proof.
  unfold needs_retry. destruct (delivery_status a !! name) as [s|]; [|done].
  rewrite andb_true_iff, orb_true_iff, !String.eqb_eq. intros [[->| ->] _]; auto.
Qed.

Lemma keeps_delivered_refl a : keeps_delivered a a.
Proof. by intros name H. Qed.

Lemma keeps_delivered_trans a b c :
  keeps_delivered a b → keeps_delivered b c → keeps_delivered a c.
Proof.
  intros H1 H2 name H. destruct (H1 name H) as [H3 H4].
  destruct (H2 name H3) as [H5 H6]. split; congruence.
Qed.

Lemma retry_write_keeps_delivered a a1 name (success : bool) :
  needs_retry a name = true →
  sender_effect a a1 →
  keeps_delivered a
    (if success
     then set_delivery_status (<[name := "delivered"]> (delivery_status a1)) a1
     else set_retry_count
            (<[name := retry_count_get a1 name + 1]> (retry_count a1)) a1).
Proof.
  intros Hg%needs_retry_failed (_ & _ & _ & Hd & Hr & _) n Hn.
  assert (name ≠ n) by (intros ->; destruct Hg; congruence).
  destruct success; cbn; rewrite ?lookup_insert_ne by done; rewrite ?Hd, ?Hr; done.
Qed.

Lemma retry_channels_keeps_delivered mgr ccs a (env : @Env World) c a1 env1 :
  retry_channels' mgr ccs a env = (c, a1, env1) → keeps_delivered a a1.
Proof.
  revert a env.
  induction ccs as [|cc rest IH]; intros a env; cbn [retry_channels].
  - intros [= <- <- <-]. apply keeps_delivered_refl.
  - destruct (needs_retry a (value (channel cc))) eqn:Hg; [|apply IH].
    destruct (retry_via' mgr cc a env) as [[o a2] e2] eqn:Hv.
    apply retry_via_effect in Hv as (Hse & Hraised).
    destruct o as [success|].
    + intros H%IH. eapply keeps_delivered_trans; [|exact H].
      by apply retry_write_keeps_delivered.
    + intros [= <- <- <-]. rewrite Hraised by done. apply keeps_delivered_refl.
Qed.

(** X6.  The retry sweep never sends again on a delivered channel: a
    channel whose delivery status is [delivered] before the sweep is
    [delivered] after it, with the same retry count. *)
Theorem retry_sweep_keeps_delivered mgr (env : @Env World) :
  Forall2
    (fun e e1 =>
       fst e1 = fst e ∧
       ∀ name,
         delivery_status (snd e) !! name = Some "delivered" →
         delivery_status (snd e1) !! name = Some "delivered" ∧
         retry_count (snd e1) !! name = retry_count (snd e) !! name)
    (alerts mgr) (alerts (retry_failed_alerts' mgr env).1.2).
Proof.
  unfold retry_failed_alerts.
  destruct (retry_alerts' mgr (alerts mgr) env) as [[c d1] e1] eqn:Hr. cbn.
  revert env c d1 e1 Hr.
  induction (alerts mgr) as [|[k a] rest IH]; intros env c d1 e1;
    cbn [retry_alerts].
  - intros [= <- <- <-]. constructor.
  - destruct (retry_channels' mgr (channels a) a env) as [[c2 a2] e2] eqn:Hc.
    apply retry_channels_keeps_delivered in Hc.
    destruct c2.
    + destruct (retry_alerts' mgr rest e2) as [[c3 rest3] e3] eqn:Hr.
      intros [= <- <- <-]. constructor; [done|]. eapply IH, Hr.
    + intros [= <- <- <-]. constructor; [done|].
      apply Forall2_same_length_lookup_2; [done|].
      intros i x y Hx Hy. assert (x = y) as -> by congruence.
      split; [done|apply keeps_delivered_refl].
Qed.

Lemma retry_via_configured mgr cc a (env : @Env World) :
  well_configured cc → (retry_via' mgr cc a env).1.1 ≠ Raised.
Proof.
  unfold well_configured, retry_via. intros [addr Ha].
  destruct (channel cc); cbn [address_key] in Ha; rewrite Ha.
  - by destruct (send_alert_email transport a addr _ env) as [[? ?] ?].
  - by destruct (send_alert_sms transport a addr env).
  - by destruct (send_alert_telegram transport a addr env).
  - by destruct (send_alert_slack transport a addr env).
  - by destruct (send_alert_websocket socket_send mgr a addr env).
  - by destruct (send_push_notification transport a addr env).
Qed.

Lemma retry_channels_configured mgr ccs a (env : @Env World) :
  Forall well_configured ccs → (retry_channels' mgr ccs a env).1.1 = Completed.
Proof.
  intros Hall. revert a env.
  induction Hall as [|cc rest Hcc _ IH]; intros a env; cbn [retry_channels];
    [done|].
  destruct (needs_retry a (value (channel cc))); [|apply IH].
  pose proof (retry_via_configured mgr cc a env Hcc) as Hv.
  destruct (retry_via' mgr cc a env) as [[[success|] a2] e2]; [apply IH|done].
Qed.

Lemma retry_channels_channels mgr ccs a (env : @Env World) :
  channels (retry_channels' mgr ccs a env).1.2 = channels a.
Proof.
  destruct (retry_channels' mgr ccs a env) as [[c a1] e1] eqn:H.
  by apply retry_channels_effect in H as (_ & _ & ? & _).
Qed.

(** Where a sweep that raised stopped. *)
Lemma retry_alerts_raised mgr d (env : @Env World) d1 env1 :
  retry_alerts' mgr d env = (KeyErrorRaised, d1, env1) →
  ∃ before e after before1 a1 env0,
    d = (before ++ e :: after)%list ∧
    d1 = (before1 ++ (fst e, a1) :: after)%list ∧
    retry_alerts' mgr before env = (Completed, before1, env0) ∧
    retry_channels' mgr (channels (snd e)) (snd e) env0
    = (KeyErrorRaised, a1, env1).
Proof.
  revert env d1 env1.
  induction d as [|[k a] rest IH]; intros env d1 env1; cbn [retry_alerts];
    [done|].
  destruct (retry_channels' mgr (channels a) a env) as [[c2 a2] e2] eqn:Hc.
  destruct c2.
  - destruct (retry_alerts' mgr rest e2) as [[c3 rest3] e3] eqn:Hr.
    intros [= -> <- <-].
    destruct (IH _ _ _ Hr) as (b & e & af & b1 & a1 & e0 & -> & -> & Hb & He).
    exists ((k, a) :: b), e, af, ((k, a2) :: b1), a1, e0.
    split_and!; [done|done| |done].
    cbn [retry_alerts]. by rewrite Hc, Hb.
  - intros [= <- <-]. exists [], (k, a), rest, [], a2, env. done.
Qed.

(** X7.  A [KeyError] ends the retry sweep at the alert that raises it:
    the alerts before that alert were swept to the end, that alert's
    own channel loop raised, from a channel without the key of its
    address, and left the world and the files as the sweep returns them,
    and the alerts that come after it are exactly as before: they are
    not swept.  Every alert keeps its key and its place. *)
Theorem retry_sweep_key_error_skips_rest mgr (env : @Env World) mgr1 env1 :
  retry_failed_alerts' mgr env = (KeyErrorRaised, mgr1, env1) →
  ∃ before e after before1 a1 env0,
    alerts mgr = (before ++ e :: after)%list ∧
    alerts mgr1 = (before1 ++ (fst e, a1) :: after)%list ∧
    retry_alerts' mgr before env = (Completed, before1, env0) ∧
    fst <$> before1 = fst <$> before ∧
    retry_channels' mgr (channels (snd e)) (snd e) env0
    = (KeyErrorRaised, a1, env1) ∧
    Exists (fun cc => ¬ well_configured cc) (channels (snd e)).
Proof.
  unfold retry_failed_alerts.
  destruct (retry_alerts' mgr (alerts mgr) env) as [[c d1] e1] eqn:Hr.
  intros [= -> <- <-]. cbn [alerts with_alerts].
  apply retry_alerts_raised in Hr
    as (b & e & af & b1 & a1 & e0 & Hd & -> & Hb & He).
  exists b, e, af, b1, a1, e0. split_and!; [done|done|done| |done|].
  - apply retry_alerts_effect in Hb. clear -Hb.
    induction Hb as [|x y l l' [Hk _] _ IH]; [done|]. cbn. by rewrite Hk, IH.
  - apply not_Forall_Exists; [intros cc; unfold well_configured; apply _|].
    intros Hall.
    pose proof (retry_channels_configured mgr (channels (snd e)) (snd e) e0
                  Hall) as Hc.
    rewrite He in Hc. discriminate Hc.
Qed.

(** X8.  The retry sweep raises no [KeyError] when every channel of every
    alert has the key of its address in its configuration, and then every
    alert keeps its channels, so this holds of the next sweep as well. *)
Theorem retry_sweep_completes_when_configured mgr (env : @Env World) :
  Forall (fun e => Forall well_configured (channels (snd e))) (alerts mgr) →
  (retry_failed_alerts' mgr env).1.1 = Completed ∧
  Forall (fun e => Forall well_configured (channels (snd e)))
    (alerts (retry_failed_alerts' mgr env).1.2).
Proof.
  unfold retry_failed_alerts.
  destruct (retry_alerts' mgr (alerts mgr) env) as [[c d1] e1] eqn:Hr. cbn.
  intros Hall. revert env c d1 e1 Hr.
  induction Hall as [|[k a] rest Ha _ IH]; intros env c d1 e1;
    cbn [retry_alerts].
  - by intros [= <- <- <-].
  - pose proof (retry_channels_configured mgr (channels a) a env Ha) as Hc.
    pose proof (retry_channels_channels mgr (channels a) a env) as Hch.
    destruct (retry_channels' mgr (channels a) a env) as [[c2 a2] e2].
    cbn in Hc, Hch. subst c2.
    destruct (retry_alerts' mgr rest e2) as [[c3 rest3] e3] eqn:Hr.
    intros [= <- <- <-]. destruct (IH _ _ _ _ Hr) as [-> Hrest].
    split; [done|]. constructor; [cbn; by rewrite Hch|done].
Qed.

Lemma send_via_configured mgr cc a email url (env : @Env World) :
  well_configured cc → (send_via' mgr cc a email url env).1.1 ≠ Raised.
Proof.
  unfold well_configured, send_via. intros [addr Ha].
  destruct (channel cc); cbn [address_key] in Ha; rewrite ?Ha.
  - by destruct (send_alert_email transport a email url env) as [[? ?] ?].
  - by destruct (send_alert_sms transport a addr env).
  - by destruct (send_alert_telegram transport a addr env).
  - by destruct (send_alert_slack transport a addr env).
  - by destruct (send_alert_websocket socket_send mgr a addr env).
  - by destruct (send_push_notification transport a addr env).
Qed.

Lemma send_alert_loop_no_error mgr ccs email url r a (env : @Env World) name :
  Forall well_configured ccs →
  delivery_status a !! name ≠ Some "error" →
  delivery_status
    (send_alert_loop transport socket_send mgr ccs email url (r, a, env)).1.2
  !! name ≠ Some "error".
Proof.
  intros Hall. revert r a env.
  induction Hall as [|cc rest Hcc _ IH]; intros r a env Hne;
    cbn [send_alert_loop]; [done|].
  destruct (enabled cc); [|by apply IH].
  unfold send_alert_step.
  pose proof (send_via_configured mgr cc a email url env Hcc) as Hv.
  destruct (send_via' mgr cc a email url env) as [[o a2] e2] eqn:Hsv.
  apply send_via_effect in Hsv as ((_ & _ & _ & Hd & _) & _).
  destruct o as [success|]; [|done].
  apply IH. destruct success; cbn; rewrite Hd;
    (destruct (decide (value (channel cc) = name)) as [<-|Hn];
     [by rewrite lookup_insert_eq|by rewrite lookup_insert_ne]).
Qed.

End RetryExtras.

Section MoreExtras.

Context {World : Type}.
Variable transport :
  AlertChannel -> Alert -> option string -> World -> bool * World.
Variable socket_send : nat -> Alert -> World -> bool * World.

(** X9.  [mark_alert_read] on an id that is not in [self.alerts] does
    nothing.  On a known id it stores the alert with status [read] under
    that id and saves it; the number of alerts and every other entry stay
    the same. *)
Theorem mark_alert_read_effect mgr alert_id (env : @Env World) :
  let r := mark_alert_read mgr alert_id env in
  match dict_get alert_id (alerts mgr) with
  | None => r = (mgr, env)
  | Some a =>
      dict_get alert_id (alerts r.1) = Some (set_status "read" a) ∧
      files r.2 !! id a = Some (set_status "read" a) ∧
      length (alerts r.1) = length (alerts mgr)
  end ∧
  ∀ key, key ≠ alert_id → dict_get key (alerts r.1) = dict_get key (alerts mgr).
Proof.
  cbv zeta. unfold mark_alert_read.
  destruct (dict_get alert_id (alerts mgr)) as [a|] eqn:Hg; cbn.
  - split_and!.
    + apply dict_get_set.
    + apply lookup_insert_eq.
    + by rewrite dict_set_length, Hg.
    + intros key Hne. by apply dict_get_set_ne.
  - done.
Qed.

(** X10.  Marking an alert read twice is marking it read once. *)
Theorem mark_alert_read_idempotent mgr alert_id (env : @Env World) :
  let once := mark_alert_read mgr alert_id env in
  mark_alert_read once.1 alert_id once.2 = once.
Proof.
  cbv zeta. unfold mark_alert_read.
  destruct (dict_get alert_id (alerts mgr)) as [a|] eqn:Hg; cbn [fst snd].
  - cbn [alerts with_alerts]. rewrite dict_get_set.
    unfold with_alerts. cbn [alerts alert_preferences websocket_connections].
    rewrite dict_set_set. f_equal.
    unfold _save_alert. cbn. by rewrite insert_insert_eq.
  - by rewrite Hg.
Qed.

(** X11.  When the keys of [self.alerts] are distinct, as the keys of a
    dict are, [cleanup_expired_alerts] sets the status of exactly the
    alerts whose expiry time has passed to [expired], whatever their
    status was, and leaves every other alert, the keys and the order as
    they are: no alert is removed. *)
Theorem cleanup_expires_exactly_the_overdue mgr now (env : @Env World) :
  NoDup (fst <$> alerts mgr) →
  let after := alerts (cleanup_expired_alerts mgr now env).1 in
  after
  = (fun e => if decide (expires_at (snd e) < now)
              then (fst e, set_status "expired" (snd e)) else e)
    <$> alerts mgr ∧
  fst <$> after = fst <$> alerts mgr.
Proof.
  intros Hnd. cbv zeta. split; [by apply cleanup_alerts_map|].
  rewrite cleanup_closed_form. cbn [fst alerts with_alerts].
  apply expiry_dict_keys.
Qed.

(** X12.  [process_pending_alerts] returns one result per alert that is
    [pending] and not past its expiry time, in the order of
    [self.alerts], with that alert's id and investor id; every other
    alert, also a pending one whose expiry time has passed, is left as it
    is. *)
Theorem process_pending_alerts_results mgr get now (env : @Env World) :
  let r := process_pending_alerts transport socket_send mgr get now env in
  (fun x => (res_alert_id x, res_investor_id x)) <$> r.1.1
  = (fun e => (id (snd e), investor_id (snd e)))
    <$> filter (fun e => dispatchable now (snd e)) (alerts mgr) ∧
  Forall2
    (fun e e1 => fst e1 = fst e ∧ (¬ dispatchable now (snd e) → snd e1 = snd e))
    (alerts mgr) (alerts r.1.2).
Proof.
  cbv zeta. unfold process_pending_alerts.
  destruct (process_pending transport socket_send mgr get now (alerts mgr) env)
    as [[rs d1] e1] eqn:Hp.
  cbn. revert env rs d1 e1 Hp.
  induction (alerts mgr) as [|[k a] rest IH]; intros env rs d1 e1;
    cbn [process_pending].
  - intros [= <- <- <-]. split; [done|constructor].
  - rewrite filter_cons. cbn [snd].
    destruct (String.eqb (status a) "pending" && (now <? expires_at a)) eqn:Hg.
    + apply andb_true_iff in Hg as [Hs%String.eqb_eq Ht%Z.ltb_lt].
      rewrite decide_True by done.
      destruct (send_alert _ _ mgr a _ _ env) as [[s a2] e2].
      destruct (process_pending _ _ mgr get now rest e2) as [[rs3 d3] e3] eqn:Hp.
      intros [= <- <- <-]. destruct (IH _ _ _ _ Hp) as [Hr Hf].
      split; [cbn; by rewrite Hr|].
      constructor; [|done]. split; [done|]. intros Hn. by destruct Hn.
    + apply andb_false_iff in Hg.
      rewrite decide_False
        by (intros [Hs Ht]; destruct Hg as [Hg|Hg];
            [apply String.eqb_neq in Hg; done|apply Z.ltb_ge in Hg; lia]).
      destruct (process_pending _ _ mgr get now rest env) as [[rs3 d3] e3] eqn:Hp.
      intros [= <- <- <-]. destruct (IH _ _ _ _ Hp) as [Hr Hf].
      split; [done|]. constructor; [|done]. done.
Qed.

End MoreExtras.

(** ** More about alert creation *)

Lemma build_channels_configured prefs investor :
  Forall well_configured (build_channels prefs investor).
Proof.
  unfold build_channels.
  repeat (apply Forall_app; split); case_match;
    repeat constructor; eexists; apply lookup_singleton_eq.
Qed.

Section CreationExtras.

Context {World AdditionalData : Type}.
Variable transport :
  AlertChannel -> Alert -> option string -> World -> bool * World.
Variable socket_send : nat -> Alert -> World -> bool * World.
Variable describe : Opportunity -> float -> option AdditionalData -> string.
Variable entitle : Opportunity -> string.
Variable format_alert_id : nat -> Z -> string.

Local Abbreviation create_alert' :=
  (create_alert (World := World) describe entitle format_alert_id).


(** X14.  A dispatch of an alert as [create_alert] built it attempts
    exactly the channels that the preferences select, and however the
    transports answer it records no [error]: every channel that
    [create_alert] builds has the key of its address. *)
Theorem created_alert_dispatch_has_no_error
    mgr investor opportunity score hours extra t1 t2 t3 (env : @Env World)
    mgr' email url (env' : @Env World) :
  let prefs := default no_preferences (alert_preferences mgr !! investor) in
  let created :=
    (create_alert' mgr investor opportunity score hours extra t1 t2 t3 env).1.1 in
  let r := send_alert transport socket_send mgr' created email url env' in
  (∀ c, is_Some (r.1.1 !! value c)
        ↔ value c ∈ default (default_selection c) (pref_channels prefs)) ∧
  (∀ name, delivery_status r.1.2 !! name ≠ Some "error").
Proof.
  cbv zeta. unfold create_alert. cbn [fst snd].
  set (prefs := default no_preferences (alert_preferences mgr !! investor)).
  unfold send_alert. cbn [channels].
  pose proof (send_alert_loop_no_error transport socket_send mgr'
                (build_channels prefs investor) email url ∅) as Hne.
  destruct (send_alert_loop transport socket_send mgr'
              (build_channels prefs investor) email url (∅, _, env'))
    as [[r1 a1] e1] eqn:Hl.
  pose proof Hl as Hl'. apply send_alert_loop_keys in Hl' as [Hk _].
  cbn [fst snd]. split.
  - intros c. rewrite Hk, lookup_empty, <- build_channels_spec. split.
    + intros [H|(cc & Hin & _ & Hv)]; [by apply is_Some_None in H|].
      exists cc. split; [done|]. by apply value_inj.
    + intros (cc & Hin & <-). right. exists cc. split_and!; [done| |done].
      pose proof (build_channels_enabled prefs investor) as Hen.
      rewrite Forall_forall in Hen. by apply Hen.
  - intros name.
    match type of Hl with
    | send_alert_loop _ _ _ _ _ _ (_, ?a, _) = _ =>
        specialize (Hne a env' name (build_channels_configured _ _))
    end.
    rewrite Hl in Hne. apply Hne. cbn. by rewrite lookup_empty.
Qed.

End CreationExtras.

(** ** Listing and counting *)

Lemma filter_length_disjoint {A} (P Q : A → Prop)
    `{∀ x, Decision (P x)} `{∀ x, Decision (Q x)} (l : list A) :
  (∀ x, P x → Q x → False) →
  (length (filter P l) + length (filter Q l) ≤ length l)%nat.
Proof.
  intros Hd. induction l as [|x l IH]; [done|].
  rewrite !filter_cons.
  destruct (decide (P x)), (decide (Q x)); cbn; try lia.
  exfalso. eauto.
Qed.

Lemma count_where_four field (l : list Alert) v1 v2 v3 v4 :
  NoDup [v1; v2; v3; v4] →
  (count_where field v1 l + count_where field v2 l
   + count_where field v3 l + count_where field v4 l ≤ length l)%nat ∧
  (Forall (fun a => field a ∈ [v1; v2; v3; v4]) l →
   count_where field v1 l + count_where field v2 l
   + count_where field v3 l + count_where field v4 l = length l)%nat.
Proof.
  intros Hnd.
  assert (Hd : v1 ≠ v2 ∧ v1 ≠ v3 ∧ v1 ≠ v4 ∧ v2 ≠ v3 ∧ v2 ≠ v4 ∧ v3 ≠ v4).
  { rewrite !NoDup_cons, !elem_of_cons, elem_of_nil in Hnd. tauto. }
  destruct Hd as (? & ? & ? & ? & ? & ?).
  unfold count_where.
  induction l as [|x l [IH1 IH2]]; [done|].
  rewrite !filter_cons. split.
  - repeat case_decide; cbn; try lia; congruence.
  - intros [Hin Hall]%Forall_cons. specialize (IH2 Hall).
    rewrite !elem_of_cons, elem_of_nil in Hin.
    repeat case_decide; cbn; try lia; try congruence.
    exfalso. tauto.
Qed.

(** X15.  The statistics of an investor count that investor's alerts:
    the total is the length of the listing with expired alerts
    included; the read and the expired alerts together are at most the
    total, and so are the four counts by priority, which add up to the
    total when every priority is one of the four that
    [_calculate_priority] returns.  An investor without alerts has
    counts of 0 and an average of 0. *)
Theorem get_alert_statistics_counts mgr investor now :
  let s := get_alert_statistics mgr investor in
  total_alerts s = length (get_investor_alerts mgr investor true now) ∧
  (read_alerts s + expired_alerts s ≤ total_alerts s)%nat ∧
  (urgent_alerts s + high_alerts s + medium_alerts s + low_alerts s
   ≤ total_alerts s)%nat ∧
  (Forall (fun e => priority (snd e) ∈ ["urgent"; "high"; "medium"; "low"])
     (alerts mgr) →
   urgent_alerts s + high_alerts s + medium_alerts s + low_alerts s
   = total_alerts s)%nat ∧
  (total_alerts s = 0%nat →
   read_alerts s = 0%nat ∧ expired_alerts s = 0%nat ∧
   average_match_score s = 0%float).
Proof.
  cbv zeta. unfold get_alert_statistics, get_investor_alerts.
  cbn [total_alerts read_alerts expired_alerts urgent_alerts high_alerts
       medium_alerts low_alerts average_match_score].
  set (l := filter (fun a => investor_id a = investor) (snd <$> alerts mgr)).
  assert (Hnd : NoDup ["urgent"; "high"; "medium"; "low"]).
  { apply (bool_decide_unpack _). by vm_compute. }
  split_and!.
  - unfold l. f_equal. apply list_filter_iff. intros a. tauto.
  - unfold count_where. apply filter_length_disjoint. intros a -> [=].
  - apply (count_where_four priority l _ _ _ _ Hnd).
  - intros Hall. apply (count_where_four priority l _ _ _ _ Hnd).
    apply Forall_forall. intros a [_ Hin]%list_elem_of_filter.
    apply list_elem_of_fmap in Hin as ([k a'] & -> & Hin).
    rewrite Forall_forall in Hall. by apply (Hall (k, a')).
  - intros Hz. destruct l; [done|discriminate Hz].
Qed.

(** X16.  The default listing of an investor's alerts, which leaves out
    the alerts past their expiry time, is the same before and after an
    expiry sweep run at the same or an earlier time: the sweep changes
    only alerts that the listing leaves out. *)
Theorem listing_unchanged_by_cleanup {World : Type} mgr investor now later
    (env : @Env World) :
  NoDup (fst <$> alerts mgr) → now ≤ later →
  get_investor_alerts (cleanup_expired_alerts mgr now env).1 investor false later
  = get_investor_alerts mgr investor false later.
Proof.
  intros Hnd Hle. unfold get_investor_alerts.
  rewrite cleanup_alerts_map by done.
  induction (alerts mgr) as [|[k a] rest IH]; [done|].
  apply NoDup_cons in Hnd as [_ Hnd]. specialize (IH Hnd).
  rewrite !fmap_cons, !filter_cons, IH. cbn [snd fst].
  destruct (decide (expires_at a < now)) as [Hlt|Hge]; cbn [snd]; [|done].
  rewrite !decide_False; [done| |]; intros [_ [[=]|Hl]]; cbn in *; lia.
Qed.

(** ** The socket registry *)

Lemma list_remove_None x l : list_remove x l = None ↔ x ∉ l.
Proof.
  induction l as [|y l IH]; cbn.
  - split; [intros _; apply not_elem_of_nil|done].
  - destruct (Nat.eqb_spec y x) as [->|Hne].
    + split; [done|]. intros []. by left.
    + rewrite not_elem_of_cons, <- IH.
      destruct (list_remove x l); cbn.
      * split; [done|intros [_ [=]]].
      * split; [intros _; split; [congruence|done]|done].
Qed.

Lemma list_remove_snoc x l : x ∉ l → list_remove x (l ++ [x]) = Some l.
Proof.
  induction l as [|y l IH]; cbn; intros Hn.
  - by rewrite Nat.eqb_refl.
  - apply not_elem_of_cons in Hn as [Hne Hn].
    destruct (Nat.eqb_spec y x) as [->|_]; [done|].
    by rewrite IH.
Qed.

(** X17.  [unregister_websocket] raises the [ValueError] of
    [list.remove] exactly when the investor has a list of connections and
    the connection is not in it; an investor without a list is left
    alone. *)
Theorem unregister_websocket_value_error mgr investor connection :
  unregister_websocket mgr investor connection = None
  ↔ ∃ conns, websocket_connections mgr !! investor = Some conns
             ∧ connection ∉ conns.
Proof.
  unfold unregister_websocket.
  destruct (websocket_connections mgr !! investor) as [conns|] eqn:Hc.
  - destruct (list_remove connection conns) as [rest|] eqn:Hr.
    + split; [done|]. intros (conns' & [= <-] & Hn).
      apply list_remove_None in Hn. congruence.
    + split; [|done]. intros _. exists conns. split; [done|].
      by apply list_remove_None.
  - split; [done|]. by intros (? & [=] & _).
Qed.

(** X18.  Registering a connection that the investor does not have and
    unregistering it again leaves the investor with the connections of
    before, but always with a list: an investor who had no entry now has
    the empty list.  The alerts and the preferences are as before. *)
Theorem register_unregister_websocket mgr investor connection :
  connection ∉ default [] (websocket_connections mgr !! investor) →
  unregister_websocket (register_websocket mgr investor connection)
    investor connection
  = Some (with_connections mgr
            (<[investor := default [] (websocket_connections mgr !! investor)]>
               (websocket_connections mgr))).
Proof.
  intros Hn. unfold unregister_websocket, register_websocket.
  cbn [websocket_connections with_connections].
  rewrite lookup_insert_eq, list_remove_snoc by done.
  unfold with_connections. cbn. by rewrite insert_insert_eq.
Qed.

Section SocketExtras.

Context {World : Type}.
Variable socket_send : nat -> Alert -> World -> bool * World.

(** X19.  For an investor who never had a socket the socket channel
    reports [False]; once the investor's only connection was registered
    and unregistered it reports [True], and in both cases nothing is sent
    and nothing is written. *)
Theorem send_alert_websocket_after_last_unregister
    mgr investor connection a (env : @Env World) :
  websocket_connections mgr !! investor = None →
  send_alert_websocket socket_send mgr a (Some investor) env = (false, env) ∧
  ∃ mgr2,
    unregister_websocket (register_websocket mgr investor connection)
      investor connection = Some mgr2 ∧
    send_alert_websocket socket_send mgr2 a (Some investor) env = (true, env).
Proof.
  intros Hnone. split.
  - unfold send_alert_websocket. by rewrite Hnone.
  - eexists. split.
    + unfold unregister_websocket, register_websocket.
      cbn [websocket_connections with_connections].
      rewrite lookup_insert_eq, Hnone. cbn. rewrite Nat.eqb_refl. done.
    + unfold send_alert_websocket. cbn [websocket_connections with_connections].
      rewrite lookup_insert_eq. by destruct env.
Qed.

End SocketExtras.

(** ** Loading *)

Lemma dict_set_Forall (P : string * Alert → Prop) key a d :
  Forall P d → P (key, a) → Forall P (dict_set key a d).
Proof.
  intros Hd Ha. induction Hd as [|[k v] d Hk Hd IH]; cbn.
  - by constructor.
  - destruct (String.eqb k key) eqn:E.
    + apply String.eqb_eq in E as ->. by constructor.
    + by constructor.
Qed.

Lemma dict_get_set_is_Some key key' a d :
  is_Some (dict_get key' d) → is_Some (dict_get key' (dict_set key a d)).
Proof.
  destruct (decide (key = key')) as [->|Hne].
  - by rewrite dict_get_set.
  - by rewrite dict_get_set_ne.
Qed.

Lemma load_fold_Forall (P : string * Alert → Prop) documents d :
  Forall P d →
  (∀ data, data ∈ documents → P (id data, loaded_alert data)) →
  Forall P (fold_left (fun d data => dict_set (id data) (loaded_alert data) d)
              documents d).
Proof.
  revert d. induction documents as [|data rest IH]; intros d Hd Hall; cbn; [done|].
  apply IH.
  - apply dict_set_Forall; [done|]. apply Hall. by left.
  - intros data' Hin. apply Hall. by right.
Qed.

Lemma load_fold_is_Some documents d key :
  is_Some (dict_get key d) ∨ (∃ data, data ∈ documents ∧ id data = key) →
  is_Some (dict_get key
             (fold_left (fun d data => dict_set (id data) (loaded_alert data) d)
                documents d)).
Proof.
  revert d. induction documents as [|data rest IH]; intros d; cbn.
  - intros [?|(? & ?%elem_of_nil & _)]; done.
  - intros [Hs|(data' & Hin & Hid)]; apply IH.
    + left. by apply dict_get_set_is_Some.
    + apply elem_of_cons in Hin as [->|Hin].
      * left. rewrite Hid. by rewrite dict_get_set.
      * right. eauto.
Qed.

Section LoadExtras.

Context {World : Type}.
Variable transport :
  AlertChannel -> Alert -> option string -> World -> bool * World.
Variable socket_send : nat -> Alert -> World -> bool * World.

(** X20.  A manager that starts from the saved alerts holds an alert for
    every saved document, under the document's id, and each of them comes
    back without channels, delivery status and retry counts.  So a
    dispatch of a reloaded alert attempts no channel and only saves the
    alert again, and a retry sweep over the reloaded alerts does
    nothing, whatever was failed or pending when they were saved. *)
Theorem reloaded_alerts_have_no_channels documents prefs conns :
  let mgr := _load_existing_alerts documents (mkManager [] prefs conns) in
  Forall (fun e => ∃ data, data ∈ documents ∧ e = (id data, loaded_alert data))
    (alerts mgr) ∧
  (∀ data, data ∈ documents → is_Some (dict_get (id data) (alerts mgr))) ∧
  (∀ (env : @Env World),
     retry_failed_alerts transport socket_send mgr env = (Completed, mgr, env)) ∧
  (∀ e mgr' email url (env : @Env World),
     e ∈ alerts mgr →
     send_alert transport socket_send mgr' (snd e) email url env
     = (∅, snd e, _save_alert (snd e) env)).
Proof.
  cbv zeta.
  assert (Hall :
    Forall (fun e => ∃ data, data ∈ documents ∧ e = (id data, loaded_alert data))
      (alerts (_load_existing_alerts documents (mkManager [] prefs conns)))).
  { unfold _load_existing_alerts. cbn [alerts with_alerts].
    apply load_fold_Forall; [constructor|]. eauto. }
  split_and!.
  - exact Hall.
  - intros data Hin. unfold _load_existing_alerts. cbn [alerts with_alerts].
    apply load_fold_is_Some. right. eauto.
  - intros env. unfold retry_failed_alerts.
    rewrite (retry_alerts_idle transport socket_send).
    + unfold with_alerts, _load_existing_alerts. done.
    + eapply Forall_impl; [exact Hall|].
      intros e (data & _ & ->) cc Hcc. cbn in Hcc. by apply elem_of_nil in Hcc.
  - intros e mgr' email url env Hin.
    rewrite Forall_forall in Hall. destruct (Hall e Hin) as (data & _ & ->).
    done.
Qed.

End LoadExtras.

(** ** The routes of the API *)

(** X21.  The route that marks an alert as read changes something only
    for the owner of a known alert: it answers 404 for an unknown id and
    403 for another investor's alert, with the manager and the files as
    they were, and for the owner it succeeds and the alert is [read]. *)
Theorem api_mark_alert_read_only_for_owner {World : Type}
    mgr alert_id investor (env : @Env World) :
  let r := Api.mark_alert_read mgr alert_id investor env in
  (r.1.1 = Api.Success
   ↔ ∃ a, dict_get alert_id (alerts mgr) = Some a ∧ investor_id a = investor) ∧
  (r.1.1 = Api.HTTPException 404 ↔ dict_get alert_id (alerts mgr) = None) ∧
  (r.1.1 ≠ Api.Success → r = (r.1.1, mgr, env)) ∧
  (r.1.1 = Api.Success →
   status <$> dict_get alert_id (alerts r.1.2) = Some "read").
Proof.
  cbv zeta. unfold Api.mark_alert_read.
  destruct (dict_get alert_id (alerts mgr)) as [a|] eqn:Hg.
  - destruct (String.eqb_spec (investor_id a) investor) as [He|Hne].
    + destruct (mark_alert_read mgr alert_id env) as [mgr1 env1] eqn:Hm.
      cbn [fst snd]. split_and!; try done.
      * split; [eauto|done].
      * intros _. unfold mark_alert_read in Hm. rewrite Hg in Hm.
        injection Hm as <- <-. cbn [alerts with_alerts].
        by rewrite dict_get_set.
    + cbn [fst snd]. split_and!; try done.
      split; [done|]. intros (a' & [= <-] & ?). done.
  - cbn [fst snd]. split_and!; try done.
    split; [done|]. by intros (? & [=] & _).
Qed.

Lemma api_dict_reads_no_preference p :
  preferences_of (Api.dict p) = no_preferences.
Proof. reflexivity. Qed.

Lemma load_alert_preferences_needs_id documents preferences :
  (∃ loaded, _load_alert_preferences documents preferences = Loaded loaded)
  ↔ Forall (fun data => ∃ v, data !! "investor_id" = Some v ∧ hashable v)
      documents.
Proof.
  revert preferences.
  induction documents as [|data rest IH]; intros preferences; cbn.
  - split; [constructor|eauto].
  - rewrite Forall_cons.
    destruct (data !! "investor_id") as [[| | |investor|]|] eqn:Hd;
      rewrite ?IH.
    + split; [intros ?; split; [by eexists|done]|tauto].
    + split; [intros ?; split; [by eexists|done]|tauto].
    + split; [intros ?; split; [by eexists|done]|tauto].
    + split; [intros ?; split; [by eexists|done]|tauto].
    + split; [by intros [? [=]]|]. by intros [(v & [= <-] & Hh) _].
    + split; [by intros [? [=]]|]. by intros [(v & [=] & _) _].
Qed.

Section PreferenceExtras.

Context {World AdditionalData : Type}.
Variable describe : Opportunity -> float -> option AdditionalData -> string.
Variable entitle : Opportunity -> string.
Variable format_alert_id : nat -> Z -> string.

(** X22.  Preferences set through the API select no channel: the API's
    model has [notification_channels], and [create_alert] reads
    [channels] and the address keys, none of which the API writes.  So
    after [PUT /investors/alert-preferences], whatever was asked for, an
    alert for that investor has the default e-mail channel alone, with
    no address. *)
Theorem api_preferences_select_no_channel
    mgr investor p preference_files opportunity score hours extra t1 t2 t3
    (env : @Env World) :
  let mgr1 := (Api.update_alert_preferences mgr investor p preference_files).1 in
  channels
    (create_alert describe entitle format_alert_id
       mgr1 investor opportunity score hours extra t1 t2 t3 env).1.1
  = [mkChannelConfig EMAIL true {["email" := None]}].
Proof.
  cbv zeta. unfold Api.update_alert_preferences, save_alert_preferences, create_alert.
  cbn [fst snd channels alert_preferences].
  rewrite lookup_insert_eq. cbn [default].
  by rewrite api_dict_reads_no_preference.
Qed.

End PreferenceExtras.

(** X23.  [_load_alert_preferences] returns normally exactly when every
    document has an [investor_id] that can be a key: a document without
    one raises [KeyError], a list as the id raises [TypeError], and the
    manager is not built.  [save_alert_preferences] writes the document
    it is given as it is, so the file that the API route leaves, whose
    document has no [investor_id], makes every later load raise. *)
Theorem load_alert_preferences_fails_after_api_update
    mgr investor p preference_files :
  let written :=
    (Api.update_alert_preferences mgr investor p preference_files).2 in
  written !! (investor ++ "_preferences") = Some (Api.dict p) ∧
  Api.dict p !! "investor_id" = None ∧
  ∀ documents preferences,
    ((∃ loaded, _load_alert_preferences documents preferences = Loaded loaded)
     ↔ Forall (fun data => ∃ v, data !! "investor_id" = Some v ∧ hashable v)
         documents) ∧
    (Api.dict p ∈ documents →
     _load_alert_preferences documents preferences = LoadKeyError ∨
     _load_alert_preferences documents preferences = LoadTypeError).
Proof.
  cbv zeta. split_and!.
  - unfold Api.update_alert_preferences, save_alert_preferences. cbn [snd].
    by rewrite lookup_insert_eq.
  - reflexivity.
  - intros documents preferences. split; [apply load_alert_preferences_needs_id|].
    intros Hin.
    destruct (_load_alert_preferences documents preferences) as [l| |] eqn:Hl;
      [|by left|by right].
    assert (Hall : ∃ l, _load_alert_preferences documents preferences = Loaded l)
      by eauto.
    apply load_alert_preferences_needs_id in Hall.
    rewrite Forall_forall in Hall. destruct (Hall _ Hin) as (v & Hv & _).
    discriminate Hv.
Qed.

(** X24.  A preference document that names its investor survives a save
    and a load: the entry that [save_alert_preferences] keeps in memory
    is the entry that [_load_alert_preferences] builds from the written
    file. *)
Theorem saved_preferences_load_back mgr investor doc preference_files preferences :
  doc !! "investor_id" = Some (JString investor) →
  let r := save_alert_preferences mgr investor doc preference_files in
  ∃ written loaded,
    r.2 !! (investor ++ "_preferences") = Some written ∧
    _load_alert_preferences [written] preferences = Loaded loaded ∧
    loaded !! investor = alert_preferences r.1 !! investor.
Proof.
  intros Hid. cbv zeta. unfold save_alert_preferences. cbn [fst snd alert_preferences].
  exists doc. eexists. split_and!.
  - by rewrite lookup_insert_eq.
  - cbn. rewrite Hid. done.
  - by rewrite !lookup_insert_eq.
Qed.

(** ** Priorities *)

Lemma priority_score_above t score opportunity :
  t ∈ [0.5%float; 0.6%float; 0.7%float; 0.9%float] →
  (t <=? score)%float = true →
  (t <=? priority_score score opportunity)%float = true.
Proof.
  intros Ht Hle.
  apply (leb_trans _ (priority_score t opportunity)).
  - clear Hle. rewrite !elem_of_cons, elem_of_nil in Ht.
    unfold priority_score. cbv zeta.
    destruct (default false (urgent opportunity)),
      (10000000 <=? investment_amount opportunity)%float,
      (default false (competitive_situation opportunity));
      destruct Ht as [->|[->|[->|[->|[]]]]]; vm_compute; reflexivity.
  - by apply priority_score_mono.
Qed.

(** X25.  The increments of [_calculate_priority] never lower a
    priority: the priority of an alert is at least the priority that its
    match score alone would give, whatever the opportunity is and also
    for a score that is infinite or not a number. *)
Theorem calculate_priority_at_least_base score opportunity :
  (priority_rank (priority_bucket score)
   ≤ priority_rank (_calculate_priority score opportunity))%nat.
Proof.
  change (_calculate_priority score opportunity)
    with (priority_bucket (priority_score score opportunity)).
  pose proof (priority_score_above 0.9 score opportunity) as H9.
  pose proof (priority_score_above 0.7 score opportunity) as H7.
  pose proof (priority_score_above 0.5 score opportunity) as H5.
  unfold priority_bucket.
  destruct (0.9 <=? score)%float.
  { rewrite H9; [done|set_solver|done]. }
  destruct (0.7 <=? score)%float.
  { rewrite H7; [|set_solver|done].
    destruct (0.9 <=? priority_score score opportunity)%float; cbn; lia. }
  destruct (0.5 <=? score)%float.
  { rewrite H5; [|set_solver|done].
    destruct (0.9 <=? priority_score score opportunity)%float; [cbn; lia|].
    destruct (0.7 <=? priority_score score opportunity)%float; cbn; lia. }
  cbn. lia.
Qed.

Section ThresholdExtras.

Context {World AdditionalData : Type}.
Variable describe : Opportunity -> float -> option AdditionalData -> string.
Variable entitle : Opportunity -> string.
Variable format_alert_id : nat -> Z -> string.

(** X26.  The route that creates an opportunity alerts only for a match
    score of 0.6 or more; an alert created for such a score is never of
    [low] priority. *)
Theorem alert_above_api_threshold_is_not_low
    mgr investor opportunity score hours extra t1 t2 t3 (env : @Env World) :
  (0.6 <=? score)%float = true →
  priority
    (create_alert describe entitle format_alert_id
       mgr investor opportunity score hours extra t1 t2 t3 env).1.1
  ∈ ["urgent"; "high"; "medium"].
Proof.
  intros Hle. unfold create_alert. cbn [fst snd priority].
  change (_calculate_priority score opportunity)
    with (priority_bucket (priority_score score opportunity)).
  assert (H5 : (0.5 <=? priority_score score opportunity)%float = true).
  { apply (leb_trans _ 0.6%float); [by vm_compute|].
    apply priority_score_above; [set_solver|done]. }
  unfold priority_bucket. rewrite H5.
  destruct (0.9 <=? priority_score score opportunity)%float; [set_solver|].
  destruct (0.7 <=? priority_score score opportunity)%float; set_solver.
Qed.

End ThresholdExtras.

(** ** The further properties on the sample inputs *)

Lemma send_alert_results_agree_witness :
  let r := send_alert delivering socket_ok no_alerts
             (sample_alert "pending" [sms_channel]) investor_mail sample_url
             blank_env in
  r.1.1 !! "sms" = Some true ∧ agrees true (delivery_status r.1.2 !! "sms").
Proof.
  split; [reflexivity|].
  exact (send_alert_results_agree delivering socket_ok no_alerts
           (sample_alert "pending" [sms_channel]) investor_mail sample_url
           blank_env "sms" true eq_refl).
Defined.

Lemma retry_sweep_without_candidates_is_noop_witness :
  retry_failed_alerts failing socket_ok read_store blank_env
  = (Completed, read_store, blank_env).
Proof.
  apply (retry_sweep_without_candidates_is_noop failing socket_ok read_store
           blank_env).
  repeat constructor.
Defined.

Lemma retry_sweep_key_error_skips_rest_witness :
  let r := retry_failed_alerts failing socket_ok unaddressed_store blank_env in
  r.1.1 = KeyErrorRaised ∧
  alerts r.1.2 !! 2%nat = alerts unaddressed_store !! 2%nat ∧
  ∃ before e after before1 a1 env0,
    alerts unaddressed_store = (before ++ e :: after)%list ∧
    alerts r.1.2 = (before1 ++ (fst e, a1) :: after)%list ∧
    retry_alerts failing socket_ok unaddressed_store before blank_env
    = (Completed, before1, env0) ∧
    fst <$> before1 = fst <$> before ∧
    retry_channels failing socket_ok unaddressed_store (channels (snd e))
      (snd e) env0
    = (KeyErrorRaised, a1, r.2) ∧
    Exists (fun cc => ¬ well_configured cc) (channels (snd e)).
Proof.
  split_and!; [reflexivity|reflexivity|].
  exact (retry_sweep_key_error_skips_rest failing socket_ok unaddressed_store
           blank_env _ _ eq_refl).
Defined.

Lemma retry_sweep_completes_when_configured_witness :
  (retry_failed_alerts failing socket_ok retry_store blank_env).1.1 = Completed ∧
  Forall (fun e => Forall well_configured (channels (snd e)))
    (alerts (retry_failed_alerts failing socket_ok retry_store blank_env).1.2).
Proof.
  apply (retry_sweep_completes_when_configured failing socket_ok retry_store
           blank_env).
  repeat constructor. by eexists.
Defined.

Lemma cleanup_expires_exactly_the_overdue_witness :
  let after := alerts (cleanup_expired_alerts read_store 200000 blank_env).1 in
  after
  = (fun e => if decide (expires_at (snd e) < 200000)
              then (fst e, set_status "expired" (snd e)) else e)
    <$> alerts read_store ∧
  fst <$> after = fst <$> alerts read_store.
Proof.
  apply (cleanup_expires_exactly_the_overdue read_store 200000 blank_env).
  apply (bool_decide_unpack _). by vm_compute.
Defined.

Lemma listing_unchanged_by_cleanup_witness :
  alerts (cleanup_expired_alerts overdue_store 200000 blank_env).1
  ≠ alerts overdue_store ∧
  get_investor_alerts (cleanup_expired_alerts overdue_store 200000 blank_env).1
    "inv_1" false 300000
  = get_investor_alerts overdue_store "inv_1" false 300000.
Proof.
  split; [vm_compute; discriminate|].
  apply (listing_unchanged_by_cleanup overdue_store "inv_1" 200000 300000
           blank_env).
  - apply (bool_decide_unpack _). by vm_compute.
  - lia.
Defined.

Lemma register_unregister_websocket_witness :
  unregister_websocket (register_websocket no_alerts "inv_1" 7) "inv_1" 7
  = Some (with_connections no_alerts
            (<["inv_1" := default [] (websocket_connections no_alerts !! "inv_1")]>
               (websocket_connections no_alerts))).
Proof.
  apply (register_unregister_websocket no_alerts "inv_1" 7).
  vm_compute. apply not_elem_of_nil.
Defined.

Lemma send_alert_websocket_after_last_unregister_witness :
  send_alert_websocket socket_ok no_alerts (sample_alert "pending" [])
    (Some "inv_1") blank_env = (false, blank_env) ∧
  ∃ mgr2,
    unregister_websocket (register_websocket no_alerts "inv_1" 7) "inv_1" 7
    = Some mgr2 ∧
    send_alert_websocket socket_ok mgr2 (sample_alert "pending" [])
      (Some "inv_1") blank_env = (true, blank_env).
Proof.
  exact (send_alert_websocket_after_last_unregister socket_ok no_alerts "inv_1" 7
           (sample_alert "pending" []) blank_env eq_refl).
Defined.

Lemma saved_preferences_load_back_witness :
  let r := save_alert_preferences no_alerts "inv_1" named_preferences ∅ in
  ∃ written loaded,
    r.2 !! ("inv_1" ++ "_preferences") = Some written ∧
    _load_alert_preferences [written] ∅ = Loaded loaded ∧
    loaded !! "inv_1" = alert_preferences r.1 !! "inv_1".
Proof.
  exact (saved_preferences_load_back no_alerts "inv_1" named_preferences ∅ ∅
           eq_refl).
Defined.

Lemma alert_above_api_threshold_is_not_low_witness :
  priority (create_for ∅).1.1 ∈ ["urgent"; "high"; "medium"].
Proof.
  apply (alert_above_api_threshold_is_not_low (World := unit) plain_text
           plain_title plain_id (mkManager [] ∅ ∅) "inv_1" sample_opportunity
           0.95%float 48 None 0 0 0 blank_env).
  reflexivity.
Defined.
